(** * gdpr.utils: paging, reflective lookups and version retrieval

    A shallow embedding of [gdpr/utils.py].  Python exceptions are modelled
    by the [result] type, generators by a step function iterated with fuel,
    and the collaborators the module calls into (the ORM's querysets and
    schema catalog, the import system, the version store, the wrapped output
    stream) by section variables or by the small models documented below. *)

From stdpp Require Import base list sorting gmap strings.
From Stdlib Require Import ZArith Lia Ascii.

Local Open Scope Z_scope.

(** ** Exceptions and results *)

Inductive exn : Type :=
  | IndexError
  | ValueError
  | TypeError
  | ImportError
  | AttributeError
  | FieldDoesNotExist
  | OtherError (tag : string).

Global Instance exn_eq_dec : EqDecision exn.
Proof. solve_decision. Defined.

Inductive result (A : Type) : Type :=
  | Ok (a : A)
  | Raise (e : exn).
Global Arguments Ok {A} a.
Global Arguments Raise {A} e.

Definition bind {A B} (r : result A) (k : A → result B) : result B :=
  match r with
  | Ok a => k a
  | Raise e => Raise e
  end.

(** How a generator run ends: it returned, it raised, or the model's fuel
    ran out while the generator was still running. *)
Inductive outcome : Type :=
  | Exhausted
  | Raised (e : exn)
  | Running.

Global Instance outcome_eq_dec : EqDecision outcome.
Proof. solve_decision. Defined.

(** ** Querysets

    A queryset is modelled by the list of rows it evaluates to.  Only the
    operations [chunked_queryset] uses are modelled; [pk] projects the
    primary key of a row. *)

Module QuerySet.
Section queryset.
Context {Row : Type} (pk : Row → Z).

Definition pk_le (a b : Row) : Prop := pk a ≤ pk b.
Definition pk_lt (a b : Row) : Prop := pk a < pk b.

Global Instance pk_le_dec a b : Decision (pk_le a b).
Proof. unfold pk_le. apply _. Defined.
Global Instance pk_le_total : Total pk_le.
Proof. intros a b. unfold pk_le. lia. Qed.
Global Instance pk_le_trans : Transitive pk_le.
Proof. intros a b c. unfold pk_le. lia. Qed.

  (** [queryset.order_by('pk')] *)
Definition order_by_pk (qs : list Row) : list Row := merge_sort pk_le qs.

  (** [queryset.filter(pk__gt=k)] and [queryset.filter(pk__lte=k)] *)
Definition filter_pk_gt (k : Z) (qs : list Row) : list Row :=
    filter (λ r, k < pk r) qs.
Definition filter_pk_lte (k : Z) (qs : list Row) : list Row :=
    filter (λ r, pk r ≤ k) qs.

  (** [queryset.exists()] *)
Definition exists_ (qs : list Row) : bool :=
    match qs with [] => false | _ :: _ => true end.

  (** [queryset.values_list('pk', flat=True)] *)
Definition values_list_pk (qs : list Row) : list Z := pk <$> qs.

  (** [values[k]]: a negative index is refused with an error that is not an
      [IndexError]; an index past the end raises [IndexError]. *)
Definition getitem (values : list Z) (k : Z) : result Z :=
    if k <? 0 then Raise ValueError
    else match values !! Z.to_nat k with
         | Some v => Ok v
         | None => Raise IndexError
         end.

  (** One turn of the [while True] loop of [chunked_queryset], from the
      cursor [start_pk], on the ordered queryset. *)
Inductive step : Type :=
    | Stop
    | Fail (e : exn)
    | Yield (chunk : list Row) (end_pk : Z).

Definition chunked_queryset_step
      (queryset : list Row) (chunk_size start_pk : Z) : step :=
    if negb (exists_ (filter_pk_gt start_pk queryset)) then Stop
    else
      match getitem (values_list_pk (filter_pk_gt start_pk queryset))
                    (chunk_size - 1) with
      | Ok end_pk =>
          Yield (filter_pk_lte end_pk (filter_pk_gt start_pk queryset)) end_pk
      | Raise IndexError =>
          match last (values_list_pk queryset) with
          | Some end_pk =>
              Yield (filter_pk_lte end_pk (filter_pk_gt start_pk queryset))
                    end_pk
          | None => Fail ValueError
          end
      | Raise e => Fail e
      end.

  (** What one completed turn did: the cursor it started from, the chunk it
      yielded and the cursor it left. *)
Record iteration : Type := Iteration {
    it_start : Z;
    it_chunk : list Row;
    it_end : Z
  }.

Fixpoint chunked_queryset_loop (fuel : nat)
      (queryset : list Row) (chunk_size start_pk : Z)
      : list iteration * outcome :=
    match fuel with
    | O => ([], Running)
    | S fuel' =>
        match chunked_queryset_step queryset chunk_size start_pk with
        | Stop => ([], Exhausted)
        | Fail e => ([], Raised e)
        | Yield chunk end_pk =>
            let r := chunked_queryset_loop fuel' queryset chunk_size end_pk in
            (Iteration start_pk chunk end_pk :: r.1, r.2)
        end
    end.

Definition chunked_queryset (fuel : nat)
      (queryset : list Row) (chunk_size : Z) : list iteration * outcome :=
    chunked_queryset_loop fuel (order_by_pk queryset) chunk_size 0.

  (** The chunks the generator yielded, in the order it yielded them. *)
Definition chunks (its : list iteration) : list (list Row) :=
    it_chunk <$> its.

(** The turns are chained from the cursor [start]: each starts where the
    previous one ended, and ends on a strictly larger cursor. *)
Fixpoint cursor_chain (start : Z) (its : list iteration) : Prop :=
  match its with
  | [] => True
  | it :: its' =>
      it_start it = start ∧ start < it_end it ∧ cursor_chain (it_end it) its'
  end.

(** The cursor the loop is left on after the turns [its], having started
    from [start]: the [end_pk] of the last turn. *)
Definition final_cursor (start : Z) (its : list iteration) : Z :=
  fold_left (λ _ it, it_end it) its start.

(** The turns [its] page through [queryset] by key: together the chunks
    hold every row exactly once, in strictly increasing key order; every
    chunk has at most [chunk_size] rows, all of them past the cursor the
    turn started from. *)
Definition pages_by_key
    (queryset : list Row) (chunk_size : Z) (its : list iteration) : Prop :=
  concat (chunks its) ≡ₚ queryset
  ∧ StronglySorted pk_lt (concat (chunks its))
  ∧ cursor_chain 0 its
  ∧ Forall (λ it, Z.of_nat (length (it_chunk it)) ≤ chunk_size
                  ∧ Forall (λ r, it_start it < pk r) (it_chunk it)) its.

End queryset.
End QuerySet.

(** ** Sliceable sequences: [chunked_iterator]

    The iterable is modelled by a list, sliced the way Python slices a
    sequence of known length. *)

Module Chunked.
Section chunked.
Context {A : Type}.

  (** How [iterable[start:stop]] clamps one bound for a sequence of length
      [n]: a negative bound counts from the end. *)
Definition slice_bound (n i : Z) : Z :=
    if i <? 0 then Z.max 0 (i + n) else Z.min i n.

Definition py_slice (l : list A) (start stop : Z) : list A :=
    let n := Z.of_nat (length l) in
    let lo := slice_bound n start in
    let hi := slice_bound n stop in
    take (Z.to_nat (hi - lo)) (drop (Z.to_nat lo) l).

  (** The [for i in count()] loop from index [i]; the result lists the
      chunks fetched, whose items are yielded one by one. *)
Fixpoint chunked_iterator_loop (fuel : nat)
      (iterable : list A) (chunk_size i : Z) : list (list A) * outcome :=
    match fuel with
    | O => ([], Running)
    | S fuel' =>
        let start := i * chunk_size in
        let chunk := py_slice iterable start (start + chunk_size) in
        if Z.of_nat (length chunk) <? chunk_size then ([chunk], Exhausted)
        else
          let r := chunked_iterator_loop fuel' iterable chunk_size (i + 1) in
          (chunk :: r.1, r.2)
    end.

Definition chunked_iterator (fuel : nat)
      (iterable : list A) (chunk_size : Z) : list (list A) * outcome :=
    chunked_iterator_loop fuel iterable chunk_size 0.

  (** The items yielded, in order. *)
Definition yielded (fetched : list (list A)) : list A := concat fetched.

End chunked.
End Chunked.

(** ** Dynamic symbol resolution: [str_to_class] *)

Module Symbols.

  (** Splits at the last dot, when there is one. *)
Fixpoint rsplit_dot (s : string) : option (string * string) :=
    match s with
    | EmptyString => None
    | String c s' =>
        match rsplit_dot s' with
        | Some (m, k) => Some (String c m, k)
        | None => if Ascii.eqb c "."%char then Some (EmptyString, s') else None
        end
    end.

  (** Whether the text has a dot. *)
Fixpoint contains_dot (s : string) : bool :=
    match s with
    | EmptyString => false
    | String c s' => Ascii.eqb c "."%char || contains_dot s'
    end.

  (** [s.rsplit('.', 1)] *)
Definition rsplit1 (s : string) : list string :=
    match rsplit_dot s with
    | Some (m, k) => [m; k]
    | None => [s]
    end.

Section str_to_class.
Context {PyModule PyValue : Type}.
    (** [__import__(name, globals(), locals(), fromlist)] and
        [getattr(module, name)] of the running interpreter. *)
Variable import_ : string → list string → result PyModule.
Variable getattr : PyModule → string → result PyValue.

Definition str_to_class (class_string : string) : result PyValue :=
      match rsplit1 class_string with
      | [module_name; class_name] =>
          bind (import_ module_name [class_name])
               (λ m, getattr m class_name)
      | _ => Raise ValueError
      end.
End str_to_class.

End Symbols.

(** ** [get_number_guess_len] *)

Module Numbers.

  (** A finite number convertible to [int]: an integer, or a rational
      (what a finite float, Decimal or Fraction denotes). *)
Inductive number : Type :=
    | Int (z : Z)
    | Ratio (num : Z) (den : positive).

  (** [int(value)] truncates toward zero. *)
Definition int (value : number) : Z :=
    match value with
    | Int z => z
    | Ratio num den => Z.quot num (Z.pos den)
    end.

Definition digit_char (d : Z) : ascii :=
    Ascii.ascii_of_nat (48 + Z.to_nat d).

  (** Decimal digits of a non-negative integer, most significant first. *)
Fixpoint digits (fuel : nat) (n : Z) : string :=
    match fuel with
    | O => EmptyString
    | S fuel' =>
        if n <? 10 then String (digit_char n) EmptyString
        else digits fuel' (n / 10)
               +:+ String (digit_char (n mod 10)) EmptyString
    end.

  (** [str(z)] for an integer [z]. *)
Definition str (z : Z) : string :=
    if z <? 0 then String "-"%char (digits (S (Z.to_nat (Z.log2 (- z)))) (- z))
    else digits (S (Z.to_nat (Z.log2 z))) z.

  (** [len(s)] *)
Definition len (s : string) : Z := Z.of_nat (String.length s).

Definition get_number_guess_len (value : number) : Z :=
    let guess_len := len (str (int value)) in
    if negb (guess_len mod 2 =? 0) then guess_len else guess_len - 1.

  (** [n] is written with [d] decimal digits ([n] non-negative). *)
Definition decimal_digits (n d : Z) : Prop :=
    0 ≤ n ∧ 0 < d ∧ n < 10 ^ d ∧ (d = 1 ∨ 10 ^ (d - 1) ≤ n).

  (** The integer part of [value] has [d] decimal digits. *)
Definition integer_part_digits (value : number) (d : Z) : Prop :=
    decimal_digits (Z.abs (int value)) d.

End Numbers.

(** ** Schema lookup: [get_field_or_none] *)

Module Schema.
Section schema.
Context {Model Field : Type}.
  (** [model._meta.get_field(field_name)] *)
Variable get_field : Model → string → result Field.

Definition get_field_or_none (model : Model) (field_name : string)
      : result (option Field) :=
    match get_field model field_name with
    | Ok f => Ok (Some f)
    | Raise FieldDoesNotExist => Ok None
    | Raise e => Raise e
    end.
End schema.
End Schema.


(** ** Parent instances and their versions

    A Python value here is [None] or a model instance.  [attribute o name]
    is the instance attribute lookup behind [getattr]: [None] stands for
    the [AttributeError] that [getattr]'s default absorbs.  [None] itself
    carries no attribute a field name can denote. *)

Module Reversion.
Section reversion.
Context {Obj ModelClass Version : Type}.

Inductive value : Type :=
  | PyNone
  | Instance (o : Obj).

Record Field : Type := { name : string }.
Record PathInfo : Type := { join_field : Field }.

(** [obj._meta.get_parent_list()], [obj._meta.get_path_to_parent(parent)] *)
Variable get_parent_list : Obj → list ModelClass.
Variable get_path_to_parent : Obj → ModelClass → list PathInfo.
Variable attribute : Obj → string → option value.
(** [Version.objects.get_for_object(obj)], evaluated *)
Variable get_for_object : value → list Version.

(** [getattr(v, name, default)] *)
Definition getattr (v : value) (attr : string) (default : value) : value :=
  match v with
  | PyNone => default
  | Instance o =>
      match attribute o attr with
      | Some x => x
      | None => default
      end
  end.

(** Successive attribute lookups along [path], each of which finds a
    value, lead from the first value to the last. *)
Inductive reaches : value → list string → value → Prop :=
  | reaches_nil v : reaches v [] v
  | reaches_cons o attr x path v :
      attribute o attr = Some x →
      reaches x path v →
      reaches (Instance o) (attr :: path) v.

(** Walking [path] from a value meets an absent value at some step: the
    value at hand is [None], or the attribute to look up is missing. *)
Inductive absent_on : value → list string → Prop :=
  | absent_here path : absent_on PyNone path
  | absent_missing o attr path :
      attribute o attr = None → absent_on (Instance o) (attr :: path)
  | absent_later o attr x path :
      attribute o attr = Some x →
      absent_on x path →
      absent_on (Instance o) (attr :: path).

Definition is_not_none (v : value) : bool :=
  match v with PyNone => false | Instance _ => true end.

Definition parent_paths (obj : Obj) : list (list string) :=
  (λ parent_path, (λ path_info, name (join_field path_info)) <$> parent_path)
    <$> ((λ parent_model, get_path_to_parent obj parent_model)
           <$> get_parent_list obj).

(** The inner [for path in parent_path] loop. *)
Definition follow (obj : Obj) (parent_path : list string) : value :=
  fold_left (λ parent_obj path, getattr parent_obj path PyNone)
            parent_path (Instance obj).

Definition get_all_parent_objects (obj : Obj) : list value :=
  let parent_objects :=
    fold_left (λ parent_objects parent_path,
                 parent_objects ++ [follow obj parent_path])
              (parent_paths obj) [] in
  List.filter is_not_none parent_objects.

Definition get_reversion_versions (obj : value) : list Version :=
  get_for_object obj.

Definition get_all_obj_and_parent_versions_queryset_list (obj : Obj)
    : list (list Version) :=
  (get_reversion_versions <$> get_all_parent_objects obj)
    ++ [get_reversion_versions (Instance obj)].

(** [[item for sublist in ... for item in sublist]] *)
Definition get_all_obj_and_parent_versions (obj : Obj) : list Version :=
  fold_left (λ items sublist,
               fold_left (λ items item, items ++ [item]) sublist items)
            (get_all_obj_and_parent_versions_queryset_list obj) [].

End reversion.
End Reversion.

(** ** [ProgressBarStream]

    The wrapped stream is an object with state [Stream]; its methods take
    positional and keyword arguments and return a result together with the
    stream's new state. *)

Module ProgressBar.
Section stream.
Context {Stream Arg Ret : Type}.
(** A Python [str] passed as an argument. *)
Variable str_arg : string → Arg.

(** A method of the wrapped object. *)
Definition method : Type :=
  list Arg → gmap string Arg → Stream → result Ret * Stream.

(** The wrapped object, as far as the wrapper uses it. *)
Record OutputStream : Type := {
  stream_write : method;
  stream_flush : method
}.

Record ProgressBarStream : Type := { stream : OutputStream }.

(** [__init__] *)
Definition init (wrapped : OutputStream) : ProgressBarStream :=
  {| stream := wrapped |}.

(** [f(ending="", *args, **kwargs)]: the interpreter refuses a keyword
    given twice before [f] is entered. *)
Definition call_with_ending (f : method)
    (args : list Arg) (kwargs : gmap string Arg) : Stream → result Ret * Stream :=
  λ σ,
  match kwargs !! "ending"%string with
  | Some _ => (Raise TypeError, σ)
  | None => f args (<["ending"%string := str_arg ""]> kwargs) σ
  end.

Definition write (self : ProgressBarStream)
    (args : list Arg) (kwargs : gmap string Arg) : Stream → result Ret * Stream :=
  call_with_ending (stream_write (stream self)) args kwargs.

Definition flush (self : ProgressBarStream) : Stream → result Ret * Stream :=
  stream_flush (stream self) [] ∅.

End stream.
End ProgressBar.

(** ** Sample collaborators

    Small concrete catalogs, object graphs and streams on which the
    definitions above can be run. *)

Module Samples.

(** A catalog of named fields whose registry fails on one name. *)
Definition sample_get_field (model : gmap string nat) (field_name : string)
    : result nat :=
  if String.eqb field_name "broken" then Raise (OtherError "registry")
  else match model !! field_name with
       | Some f => Ok f
       | None => Raise FieldDoesNotExist
       end.

Definition sample_model : gmap string nat :=
  <["email" := 1%nat]> (<["name" := 2%nat]> ∅).

(** An import system with one module, [gdpr.utils], holding one name. *)
Definition sample_import (module_name : string) (fromlist : list string)
    : result nat :=
  if String.eqb module_name "gdpr.utils" then Ok 7%nat else Raise ImportError.

Definition sample_getattr (m : nat) (attr : string) : result string :=
  if String.eqb attr "str_to_class" then Ok "function"%string
  else Raise AttributeError.

(** A three-level multi-table inheritance chain: instance 0 has the parent
    1 through [place_ptr]; the link from 1 to its own parent is unset. *)
Definition sample_parent_list (o : nat) : list string :=
  ["Place"; "Location"]%string.

Definition sample_path_to_parent (o : nat) (parent : string)
    : list (@Reversion.PathInfo) :=
  if String.eqb parent "Place"
  then [ {| Reversion.join_field := {| Reversion.name := "place_ptr" |} |} ]
  else [ {| Reversion.join_field := {| Reversion.name := "place_ptr" |} |};
         {| Reversion.join_field := {| Reversion.name := "location_ptr" |} |} ].

Definition sample_attribute (o : nat) (attr : string)
    : option (@Reversion.value nat) :=
  match o with
  | O => if String.eqb attr "place_ptr"
         then Some (Reversion.Instance 1%nat) else None
  | S _ => if String.eqb attr "location_ptr"
           then Some Reversion.PyNone else None
  end.

(** A stream that records what it is asked to write, line ending included
    (a newline unless the caller gives one). *)
Definition sample_stream : @ProgressBar.OutputStream (list string) string unit :=
  {| ProgressBar.stream_write := λ args kwargs σ,
       (Ok (), σ ++ [String.concat "" args
                      +:+ default (String "010"%char EmptyString)
                                  (kwargs !! "ending"%string)]);
     ProgressBar.stream_flush := λ args kwargs σ, (Ok (), σ) |}.

End Samples.

(** * Properties *)

(** ** Keyset pagination *)

Module QuerySetFacts.
Import QuerySet.
Section facts.
Context {Row : Type} (pk : Row → Z).
Implicit Types (queryset rest : list Row) (start_pk end_pk chunk_size : Z).

Lemma order_by_pk_sorted queryset :
  StronglySorted (pk_le pk) (order_by_pk pk queryset).
Proof. apply StronglySorted_merge_sort; apply _. Qed.

Lemma order_by_pk_perm queryset : order_by_pk pk queryset ≡ₚ queryset.
Proof. apply merge_sort_Permutation. Qed.

Lemma filter_all (P : Row → Prop) `{!∀ x, Decision (P x)} (l : list Row) :
  Forall P l → filter P l = l.
Proof.
  induction 1 as [|x l Hx _ IH]; [done|].
  rewrite filter_cons_True by done. by rewrite IH.
Qed.

Lemma filter_none (P : Row → Prop) `{!∀ x, Decision (P x)} (l : list Row) :
  Forall (λ x, ¬ P x) l → filter P l = [].
Proof.
  induction 1 as [|x l Hx _ IH]; [done|].
  rewrite filter_cons_False by done. exact IH.
Qed.

(** In an ordered queryset the last row carries the largest key. *)
Lemma sorted_last_max queryset r :
  StronglySorted (pk_le pk) queryset →
  last queryset = Some r →
  Forall (λ x, pk x ≤ pk r) queryset.
Proof.
  induction 1 as [|x l Hl IH Hx]; intros Hlast; [constructor|].
  destruct l as [|y l'].
  - simpl in Hlast. injection Hlast as ->. constructor; [lia|constructor].
  - rewrite last_cons_cons in Hlast. specialize (IH Hlast).
    constructor; [|exact IH].
    apply Forall_inv in Hx. apply Forall_inv in IH.
    unfold pk_le in Hx. lia.
Qed.

Lemma step_stop queryset chunk_size start_pk :
  chunked_queryset_step pk queryset chunk_size start_pk = Stop ↔
  Forall (λ r, pk r ≤ start_pk) queryset.
Proof.
  unfold chunked_queryset_step, filter_pk_gt. split.
  - intros Hstep. apply Forall_forall. intros r Hr.
    destruct (filter (λ r, start_pk < pk r) queryset) as [|r0 rest] eqn:Hf.
    + destruct (decide (pk r ≤ start_pk)) as [|Hn]; [done|].
      exfalso. eapply (filter_nil_not_elem_of _ _ r Hf); [lia|done].
    + simpl in Hstep. destruct (getitem _ _) as [?|[]]; try done.
      destruct (last _); done.
  - intros Hall.
    assert (filter (λ r, start_pk < pk r) queryset = []) as ->; [|done].
    induction Hall as [|x l Hx _ IH]; [done|].
    rewrite filter_cons_False by lia. exact IH.
Qed.

(** What a turn that yields does. *)
Lemma step_yield queryset chunk_size start_pk chunk end_pk :
  StronglySorted (pk_le pk) queryset →
  chunked_queryset_step pk queryset chunk_size start_pk = Yield chunk end_pk →
  start_pk < end_pk
  ∧ chunk = filter_pk_lte pk end_pk (filter_pk_gt pk start_pk queryset)
  ∧ ∃ r, r ∈ chunk.
Proof.
  intros Hsorted. unfold chunked_queryset_step.
  destruct (filter_pk_gt pk start_pk queryset) as [|r0 rest] eqn:Hf;
    [done|]. simpl negb. cbv iota.
  assert (r0 ∈ queryset ∧ start_pk < pk r0) as [Hr0 Hgt].
  { assert (r0 ∈ filter_pk_gt pk start_pk queryset) as Hin
      by (rewrite Hf; left).
    apply list_elem_of_filter in Hin. tauto. }
  unfold getitem. destruct (chunk_size - 1 <? 0) eqn:Hneg; [done|].
  unfold values_list_pk. rewrite list_lookup_fmap.
  destruct ((r0 :: rest) !! Z.to_nat (chunk_size - 1)) as [x|] eqn:Hx; simpl.
  - intros [= <- <-].
    assert (x ∈ filter_pk_gt pk start_pk queryset) as Hin.
    { rewrite Hf. eapply list_elem_of_lookup_2, Hx. }
    pose proof Hin as Hin'. apply list_elem_of_filter in Hin' as [Hsx _].
    split; [lia|]. split; [done|]. exists x.
    apply list_elem_of_filter. split; [lia|]. by rewrite <- Hf.
  - rewrite fmap_last. destruct (last queryset) as [y|] eqn:Hy; simpl; [|done].
    intros [= <- <-].
    pose proof (sorted_last_max _ _ Hsorted Hy) as Hmax.
    rewrite Forall_forall in Hmax. pose proof (Hmax _ Hr0).
    split; [lia|]. split; [done|]. exists r0.
    apply list_elem_of_filter. split; [lia|left].
Qed.

Lemma step_no_fail queryset chunk_size start_pk e :
  0 < chunk_size →
  chunked_queryset_step pk queryset chunk_size start_pk ≠ Fail e.
Proof.
  intros Hpos. unfold chunked_queryset_step.
  destruct (filter_pk_gt pk start_pk queryset) as [|r0 rest] eqn:Hf;
    [done|]. simpl negb. cbv iota.
  unfold getitem. destruct (chunk_size - 1 <? 0) eqn:Hneg; [lia|].
  destruct (values_list_pk pk (r0 :: rest) !! _); [done|].
  unfold values_list_pk. rewrite fmap_last.
  destruct (last queryset) eqn:Hlast; [done|].
  apply last_None in Hlast. subst queryset. done.
Qed.

(** Moving the cursor over a row shrinks what is left to fetch. *)
Lemma filter_pk_gt_shrinks queryset start_pk end_pk r :
  start_pk < end_pk → r ∈ queryset → start_pk < pk r ≤ end_pk →
  (length (filter_pk_gt pk end_pk queryset)
   < length (filter_pk_gt pk start_pk queryset))%nat.
Proof.
  intros Hlt Hr Hpk.
  assert (filter_pk_gt pk end_pk queryset
          = filter (λ x, end_pk < pk x) (filter_pk_gt pk start_pk queryset))
    as ->.
  { unfold filter_pk_gt. rewrite list_filter_filter_l; [done|]. intros; lia. }
  apply (length_filter_lt _ _ r); [|lia].
  apply list_elem_of_filter. split; [lia|done].
Qed.

(** In an ordered queryset, the rows after [start_pk] are those up to
    [end_pk] followed by those after [end_pk]. *)
Lemma filter_pk_split queryset start_pk end_pk :
  StronglySorted (pk_le pk) queryset → start_pk ≤ end_pk →
  filter_pk_lte pk end_pk (filter_pk_gt pk start_pk queryset)
    ++ filter_pk_gt pk end_pk queryset
  = filter_pk_gt pk start_pk queryset.
Proof.
  intros Hsorted Hle. unfold filter_pk_lte, filter_pk_gt.
  induction Hsorted as [|x l Hsl IH Hl]; [done|].
  destruct (decide (start_pk < pk x)) as [Hs|Hs].
  - rewrite (filter_cons_True (λ r, start_pk < pk r)) by done.
    destruct (decide (pk x ≤ end_pk)) as [He|He].
    + rewrite (filter_cons_True (λ r, pk r ≤ end_pk)) by done.
      rewrite (filter_cons_False (λ r, end_pk < pk r)) by lia.
      simpl. by rewrite IH.
    + rewrite (filter_cons_False (λ r, pk r ≤ end_pk)) by done.
      rewrite (filter_cons_True (λ r, end_pk < pk r)) by lia.
      assert (filter (λ r, pk r ≤ end_pk)
                (filter (λ r, start_pk < pk r) l) = []) as ->.
      { rewrite list_filter_filter. apply filter_none.
        eapply Forall_impl; [exact Hl|]. unfold pk_le. intros; lia. }
      simpl. f_equal.
      rewrite !filter_all; [done| |];
        (eapply Forall_impl; [exact Hl|]); unfold pk_le; intros; lia.
  - rewrite (filter_cons_False (λ r, start_pk < pk r)) by done.
    rewrite (filter_cons_False (λ r, end_pk < pk r)) by lia.
    exact IH.
Qed.

Lemma loop_chain fuel queryset chunk_size start_pk :
  StronglySorted (pk_le pk) queryset →
  cursor_chain start_pk
    (chunked_queryset_loop pk fuel queryset chunk_size start_pk).1.
Proof.
  intros Hsorted. revert start_pk.
  induction fuel as [|fuel IH]; intros start_pk; simpl; [done|].
  destruct (chunked_queryset_step _ _ _ _) as [| |chunk end_pk] eqn:Hstep;
    simpl; [done..|].
  apply step_yield in Hstep as (Hlt & _ & _); [|done].
  split; [done|]. split; [done|]. apply IH.
Qed.

Lemma loop_keys fuel queryset chunk_size start_pk :
  StronglySorted (pk_le pk) queryset →
  Forall (λ it, Forall (λ r, it_start it < pk r ≤ it_end it) (it_chunk it))
    (chunked_queryset_loop pk fuel queryset chunk_size start_pk).1.
Proof.
  intros Hsorted. revert start_pk.
  induction fuel as [|fuel IH]; intros start_pk; simpl; [constructor|].
  destruct (chunked_queryset_step _ _ _ _) as [| |chunk end_pk] eqn:Hstep;
    simpl; [constructor..|].
  apply step_yield in Hstep as (_ & -> & _); [|done].
  constructor; [|apply IH]. simpl.
  apply Forall_forall. intros r Hr.
  apply list_elem_of_filter in Hr as [? Hr].
  apply list_elem_of_filter in Hr as [? _]. lia.
Qed.

Lemma loop_terminates fuel queryset chunk_size start_pk :
  StronglySorted (pk_le pk) queryset →
  (length (filter_pk_gt pk start_pk queryset) < fuel)%nat →
  (chunked_queryset_loop pk fuel queryset chunk_size start_pk).2 ≠ Running.
Proof.
  intros Hsorted. revert start_pk.
  induction fuel as [|fuel IH]; intros start_pk Hfuel; simpl; [lia|].
  destruct (chunked_queryset_step _ _ _ _) as [| |chunk end_pk] eqn:Hstep;
    simpl; [done..|].
  apply step_yield in Hstep as (Hlt & -> & r & Hr); [|done].
  apply IH.
  apply list_elem_of_filter in Hr as [? Hr].
  apply list_elem_of_filter in Hr as [? Hr].
  pose proof (filter_pk_gt_shrinks queryset start_pk end_pk r
                Hlt Hr ltac:(lia)). lia.
Qed.

Lemma loop_exhausts fuel queryset chunk_size start_pk :
  0 < chunk_size →
  (chunked_queryset_loop pk fuel queryset chunk_size start_pk).2 ≠ Running →
  (chunked_queryset_loop pk fuel queryset chunk_size start_pk).2 = Exhausted.
Proof.
  intros Hpos. revert start_pk.
  induction fuel as [|fuel IH]; intros start_pk; simpl; [done|].
  destruct (chunked_queryset_step _ _ _ _) as [|e|chunk end_pk] eqn:Hstep;
    simpl; [done| |apply IH].
  by apply step_no_fail in Hstep.
Qed.

(** A run that returns has yielded, chunk after chunk, the rows past the
    cursor it started from. *)
Lemma loop_concat fuel queryset chunk_size start_pk :
  StronglySorted (pk_le pk) queryset →
  (chunked_queryset_loop pk fuel queryset chunk_size start_pk).2 = Exhausted →
  concat (chunks (chunked_queryset_loop pk fuel queryset chunk_size start_pk).1)
  = filter_pk_gt pk start_pk queryset.
Proof.
  intros Hsorted. revert start_pk.
  induction fuel as [|fuel IH]; intros start_pk; simpl; [done|].
  destruct (chunked_queryset_step _ _ _ _) as [|e|chunk end_pk] eqn:Hstep;
    simpl; [|done|].
  - intros _. apply step_stop in Hstep. symmetry. apply filter_none.
    eapply Forall_impl; [exact Hstep|]. simpl. intros; lia.
  - intros Hdone. apply step_yield in Hstep as (Hlt & -> & _); [|done].
    unfold chunks in *.
    etrans; [|apply (filter_pk_split queryset start_pk end_pk); [done|lia]].
    f_equal. apply IH, Hdone.
Qed.

Lemma chain_start_ge start (its : list (@iteration Row)) :
  cursor_chain start its → Forall (λ it, start ≤ it_start it) its.
Proof.
  revert start. induction its as [|it its IH]; intros start; [constructor|].
  simpl. intros (Hs & Hlt & Hchain). constructor; [lia|].
  eapply Forall_impl; [apply IH, Hchain|]. simpl. intros; lia.
Qed.

Lemma sorted_distinct_strict queryset :
  StronglySorted (pk_le pk) queryset → NoDup (pk <$> queryset) →
  StronglySorted (pk_lt pk) queryset.
Proof.
  induction 1 as [|x l Hsl IH Hl]; intros Hnd; [constructor|].
  rewrite fmap_cons in Hnd. apply NoDup_cons in Hnd as [Hx Hnd].
  constructor; [by apply IH|].
  apply Forall_forall. intros y Hy. rewrite Forall_forall in Hl.
  specialize (Hl y Hy). unfold pk_le in Hl. unfold pk_lt.
  destruct (decide (pk x = pk y)) as [Heq|]; [|lia].
  exfalso. apply Hx. rewrite Heq. by apply list_elem_of_fmap_2.
Qed.

Lemma sorted_filter (R : relation Row) (P : Row → Prop)
    `{!∀ x, Decision (P x)} (l : list Row) :
  StronglySorted R l → StronglySorted R (filter P l).
Proof.
  induction 1 as [|x l Hsl IH Hl]; [constructor|].
  rewrite filter_cons. destruct (decide (P x)); [|done].
  constructor; [done|].
  apply Forall_forall. intros y Hy. apply list_elem_of_filter in Hy as [_ Hy].
  rewrite Forall_forall in Hl. by apply Hl.
Qed.

(** With distinct keys in order, the rows up to the key at index [k] are
    the first [k + 1]. *)
Lemma strict_prefix_length rest (k : nat) x :
  StronglySorted (pk_lt pk) rest → rest !! k = Some x →
  length (filter_pk_lte pk (pk x) rest) = S k.
Proof.
  intros Hsorted. revert k.
  induction Hsorted as [|y l Hsl IH Hl]; intros k Hk; [done|].
  unfold filter_pk_lte in *. destruct k as [|k]; simpl in Hk.
  - injection Hk as ->. rewrite filter_cons_True by lia.
    rewrite filter_none; [done|].
    eapply Forall_impl; [exact Hl|]. unfold pk_lt. simpl. intros; lia.
  - assert (pk y < pk x) as Hlt.
    { rewrite Forall_forall in Hl. apply (Hl x).
      eapply list_elem_of_lookup_2, Hk. }
    rewrite filter_cons_True by lia. simpl. f_equal. by apply IH.
Qed.

Lemma step_chunk_length queryset chunk_size start_pk chunk end_pk :
  StronglySorted (pk_lt pk) queryset →
  chunked_queryset_step pk queryset chunk_size start_pk = Yield chunk end_pk →
  Z.of_nat (length chunk) ≤ chunk_size.
Proof.
  intros Hsorted. unfold chunked_queryset_step.
  assert (StronglySorted (pk_lt pk) (filter_pk_gt pk start_pk queryset))
    as Hrest by (by apply sorted_filter).
  destruct (filter_pk_gt pk start_pk queryset) as [|r0 rest]; [done|].
  simpl negb. cbv iota.
  unfold getitem. destruct (chunk_size - 1 <? 0) eqn:Hneg; [done|].
  unfold values_list_pk. rewrite list_lookup_fmap.
  destruct ((r0 :: rest) !! Z.to_nat (chunk_size - 1)) as [x|] eqn:Hx; simpl.
  - intros [= <- <-]. rewrite (strict_prefix_length _ _ _ Hrest Hx). lia.
  - rewrite fmap_last. destruct (last queryset) as [y|]; simpl; [|done].
    intros [= <- <-]. apply lookup_ge_None in Hx.
    assert (length (filter_pk_lte pk (pk y) (r0 :: rest))
            ≤ length (r0 :: rest))%nat by apply length_filter.
    lia.
Qed.

Lemma loop_chunk_lengths fuel queryset chunk_size start_pk :
  StronglySorted (pk_lt pk) queryset →
  Forall (λ it, Z.of_nat (length (it_chunk it)) ≤ chunk_size)
    (chunked_queryset_loop pk fuel queryset chunk_size start_pk).1.
Proof.
  intros Hsorted. revert start_pk.
  induction fuel as [|fuel IH]; intros start_pk; simpl; [constructor|].
  destruct (chunked_queryset_step _ _ _ _) as [| |chunk end_pk] eqn:Hstep;
    simpl; [constructor..|].
  constructor; [|apply IH]. simpl. by eapply step_chunk_length.
Qed.

(** With more fuel than the queryset has rows, the run is over. *)
Lemma run_is_over queryset chunk_size fuel :
  (length queryset < fuel)%nat →
  (chunked_queryset_loop pk fuel (order_by_pk pk queryset) chunk_size 0).2
  ≠ Running.
Proof.
  intros Hfuel. apply loop_terminates; [apply order_by_pk_sorted|].
  pose proof (length_filter (λ r, 0 < pk r) (order_by_pk pk queryset)).
  pose proof (Permutation_length (order_by_pk_perm queryset)).
  unfold filter_pk_gt. lia.
Qed.

(** A turn that does not stop found a row past its cursor. *)
Lemma step_not_stop queryset chunk_size start_pk :
  chunked_queryset_step pk queryset chunk_size start_pk ≠ Stop →
  ∃ r, r ∈ queryset ∧ start_pk < pk r.
Proof.
  intros Hstep.
  destruct (filter_pk_gt pk start_pk queryset) as [|r0 rest] eqn:Hf.
  - exfalso. apply Hstep. unfold chunked_queryset_step. by rewrite Hf.
  - exists r0.
    assert (r0 ∈ filter_pk_gt pk start_pk queryset) as Hin
      by (rewrite Hf; left).
    apply list_elem_of_filter in Hin. tauto.
Qed.

(** Every turn of a run started with a row past its cursor. *)
Lemma loop_started fuel queryset chunk_size start_pk :
  Forall (λ it, ∃ r, r ∈ queryset ∧ it_start it < pk r)
    (chunked_queryset_loop pk fuel queryset chunk_size start_pk).1.
Proof.
  revert start_pk.
  induction fuel as [|fuel IH]; intros start_pk; simpl; [constructor|].
  destruct (chunked_queryset_step _ _ _ _) as [| |chunk end_pk] eqn:Hstep;
    simpl; [constructor..|].
  constructor; [|apply IH]. simpl.
  apply (step_not_stop queryset chunk_size). by rewrite Hstep.
Qed.

(** A run that returned left its cursor where no row is past it. *)
Lemma loop_returned fuel queryset chunk_size start_pk :
  (chunked_queryset_loop pk fuel queryset chunk_size start_pk).2 = Exhausted →
  Forall (λ r, pk r ≤ final_cursor start_pk
                 (chunked_queryset_loop pk fuel queryset chunk_size
                    start_pk).1)
    queryset.
Proof.
  revert start_pk.
  induction fuel as [|fuel IH]; intros start_pk; simpl; [done|].
  destruct (chunked_queryset_step _ _ _ _) as [| |chunk end_pk] eqn:Hstep;
    simpl; [|done|apply IH].
  intros _. apply step_stop in Hstep. exact Hstep.
Qed.

(** A run that raised did so on a turn that had a row past its cursor. *)
Lemma loop_raised fuel queryset chunk_size start_pk e :
  (chunked_queryset_loop pk fuel queryset chunk_size start_pk).2 = Raised e →
  ∃ r, r ∈ queryset
       ∧ final_cursor start_pk
           (chunked_queryset_loop pk fuel queryset chunk_size start_pk).1
         < pk r.
Proof.
  revert start_pk.
  induction fuel as [|fuel IH]; intros start_pk; simpl; [done|].
  destruct (chunked_queryset_step _ _ _ _) as [| |chunk end_pk] eqn:Hstep;
    simpl; [done| |apply IH].
  intros _. apply (step_not_stop queryset chunk_size). by rewrite Hstep.
Qed.

(** C3: on every finite queryset and for every chunk size, a run of
    [chunked_queryset] with more fuel than the queryset has rows is over
    (it returned, or it raised), and it returned when the chunk size is
    positive; the cursor starts at 0 and strictly increases on every turn;
    every turn the run made started with a row past its cursor, and the
    run returned exactly when no row is past the cursor it was left on;
    and a turn stops exactly when no row has a key greater than the
    cursor. *)
Theorem chunked_queryset_terminates queryset chunk_size fuel :
  (length queryset < fuel)%nat →
  (chunked_queryset pk fuel queryset chunk_size).2 ≠ Running
  ∧ (0 < chunk_size →
     (chunked_queryset pk fuel queryset chunk_size).2 = Exhausted)
  ∧ cursor_chain 0 (chunked_queryset pk fuel queryset chunk_size).1
  ∧ Forall (λ it, ∃ r, r ∈ queryset ∧ it_start it < pk r)
      (chunked_queryset pk fuel queryset chunk_size).1
  ∧ ((chunked_queryset pk fuel queryset chunk_size).2 = Exhausted
     ↔ Forall (λ r, pk r ≤ final_cursor 0
                      (chunked_queryset pk fuel queryset chunk_size).1)
         queryset)
  ∧ ∀ start_pk,
      chunked_queryset_step pk (order_by_pk pk queryset) chunk_size start_pk
        = Stop
      ↔ Forall (λ r, pk r ≤ start_pk) queryset.
Proof.
  intros Hfuel. unfold chunked_queryset.
  pose proof (order_by_pk_sorted queryset) as Hsorted.
  pose proof (order_by_pk_perm queryset) as Hperm.
  pose proof (run_is_over queryset chunk_size fuel Hfuel) as Hrun.
  split; [done|]. split; [intros; by apply loop_exhausts|].
  split; [by apply loop_chain|].
  split; [|split].
  - eapply Forall_impl; [apply loop_started|]. simpl.
    intros it (r & Hr & Hlt). exists r. by rewrite <- Hperm.
  - split.
    + intros Hdone. rewrite <- Hperm. by apply loop_returned.
    + intros Hall.
      destruct (chunked_queryset_loop pk fuel (order_by_pk pk queryset)
                  chunk_size 0).2 as [|e|] eqn:Hout; [done| |done].
      exfalso. destruct (loop_raised fuel _ chunk_size 0 e Hout)
        as (r & Hr & Hlt).
      rewrite Hperm in Hr. rewrite Forall_forall in Hall.
      specialize (Hall r Hr). simpl in Hall. lia.
  - intros start_pk. rewrite step_stop. by rewrite Hperm.
Qed.

(** C10: whatever the queryset, the chunk size and the fuel, every row in
    every chunk [chunked_queryset] yields has a key strictly greater than
    zero: the cursor starts at 0, so rows with a zero or negative key are in
    no chunk. *)
Theorem chunked_queryset_yields_positive_keys queryset chunk_size fuel :
  Forall (λ it, Forall (λ r, 0 < pk r) (it_chunk it))
    (chunked_queryset pk fuel queryset chunk_size).1.
Proof.
  unfold chunked_queryset.
  pose proof (order_by_pk_sorted queryset) as Hsorted.
  pose proof (loop_keys fuel _ chunk_size 0 Hsorted) as Hkeys.
  pose proof (chain_start_ge _ _ (loop_chain fuel _ chunk_size 0 Hsorted))
    as Hstart.
  rewrite Forall_forall in Hkeys, Hstart. apply Forall_forall.
  intros it Hit. specialize (Hkeys it Hit). specialize (Hstart it Hit).
  eapply Forall_impl; [exact Hkeys|]. simpl. intros; lia.
Qed.

(** C1, amended: for a queryset whose keys are distinct and all strictly
    positive, and a positive chunk size, a run of [chunked_queryset] with
    more fuel than the queryset has rows returns, and its turns page
    through the queryset by key: the chunks together hold every row exactly
    once in strictly increasing key order, and every chunk has at most
    [chunk_size] rows, all with keys past the cursor of its turn. *)
Theorem chunked_queryset_pages_positive_keys queryset chunk_size fuel :
  NoDup (pk <$> queryset) →
  Forall (λ r, 0 < pk r) queryset →
  0 < chunk_size →
  (length queryset < fuel)%nat →
  ∃ its,
    chunked_queryset pk fuel queryset chunk_size = (its, Exhausted)
    ∧ pages_by_key pk queryset chunk_size its.
Proof.
  intros Hnd Hpos Hcs Hfuel.
  pose proof (order_by_pk_sorted queryset) as Hsorted.
  pose proof (loop_exhausts fuel _ chunk_size 0 Hcs
                (run_is_over queryset chunk_size fuel Hfuel)) as Hdone.
  pose proof (loop_chain fuel _ chunk_size 0 Hsorted) as Hchain.
  exists (chunked_queryset pk fuel queryset chunk_size).1.
  unfold chunked_queryset in *.
  split; [rewrite <- Hdone; by destruct (chunked_queryset_loop _ _ _ _ _)|].
  pose proof (order_by_pk_perm queryset) as Hperm.
  assert (StronglySorted (pk_lt pk) (order_by_pk pk queryset)) as Hstrict.
  { apply sorted_distinct_strict; [done|]. by rewrite Hperm. }
  assert (concat (chunks (chunked_queryset_loop pk fuel
            (order_by_pk pk queryset) chunk_size 0).1)
          = order_by_pk pk queryset) as Hconcat.
  { rewrite loop_concat by done. apply filter_all. by rewrite Hperm. }
  unfold pages_by_key. rewrite Hconcat.
  split; [done|]. split; [done|]. split; [done|].
  apply Forall_and. split; [by apply loop_chunk_lengths|].
  eapply Forall_impl; [by apply loop_keys|]. simpl. intros it Hit.
  eapply Forall_impl; [exact Hit|]. simpl. intros; lia.
Qed.

End facts.

Lemma chunked_queryset_terminates_witness :
  (length [3; 1; 2] < 4)%nat
  ∧ (chunked_queryset id 4 [3; 1; 2] 2).2 ≠ Running
  ∧ (0 < 2 → (chunked_queryset id 4 [3; 1; 2] 2).2 = Exhausted)
  ∧ cursor_chain 0 (chunked_queryset id 4 [3; 1; 2] 2).1
  ∧ Forall (λ it, ∃ r, r ∈ [3; 1; 2] ∧ it_start it < id r)
      (chunked_queryset id 4 [3; 1; 2] 2).1
  ∧ ((chunked_queryset id 4 [3; 1; 2] 2).2 = Exhausted
     ↔ Forall (λ r, id r ≤ final_cursor 0
                      (chunked_queryset id 4 [3; 1; 2] 2).1)
         [3; 1; 2])
  ∧ ∀ start_pk,
      chunked_queryset_step id (order_by_pk id [3; 1; 2]) 2 start_pk = Stop
      ↔ Forall (λ r, id r ≤ start_pk) [3; 1; 2].
Proof.
  split; [simpl; lia|].
  apply (chunked_queryset_terminates id [3; 1; 2] 2 4). simpl; lia.
Defined.

Lemma chunked_queryset_pages_positive_keys_witness :
  ∃ its,
    chunked_queryset id 4 [3; 1; 2] 2 = (its, Exhausted)
    ∧ pages_by_key id [3; 1; 2] 2 its.
Proof.
  apply (chunked_queryset_pages_positive_keys id [3; 1; 2] 2 4).
  - apply (bool_decide_unpack _). vm_compute. reflexivity.
  - apply (bool_decide_unpack _). vm_compute. reflexivity.
  - lia.
  - simpl; lia.
Defined.

(** C1 as stated fails: a row with key 0 is in no chunk, so the chunks of
    a returned run cannot hold every row; and with chunk size 0 the run
    raises on a queryset that has a row to fetch. *)
Lemma chunked_queryset_misses_key_zero :
  ¬ (∀ (queryset : list Z) (chunk_size : Z),
       NoDup (id <$> queryset) →
       ∃ fuel its,
         chunked_queryset id fuel queryset chunk_size = (its, Exhausted)
         ∧ pages_by_key id queryset chunk_size its)
  ∧ chunked_queryset id 2 [0] 1 = ([], Exhausted)
  ∧ chunked_queryset id 2 [1] 0 = ([], Raised ValueError).
Proof.
  split; [|split; reflexivity].
  intros Hclaim.
  destruct (Hclaim [0] 1) as (fuel & its & Hrun & Hperm & _).
  { apply (bool_decide_unpack _). vm_compute. reflexivity. }
  destruct fuel as [|fuel]; [discriminate Hrun|].
  injection Hrun as <-. simpl in Hperm.
  by apply Permutation_nil_cons in Hperm.
Qed.

End QuerySetFacts.

(** ** Paging a sliceable sequence *)

Module ChunkedFacts.
Import Chunked.
Section facts.
Context {A : Type}.
Implicit Types (iterable chunk : list A) (chunk_size start i : Z).

(** A slice that starts inside or past the sequence and has a positive
    width is a [take] of a [drop]. *)
Lemma py_slice_window iterable start chunk_size :
  0 ≤ start → 0 < chunk_size →
  py_slice iterable start (start + chunk_size)
  = take (Z.to_nat chunk_size) (drop (Z.to_nat start) iterable).
Proof.
  intros Hstart Hcs. unfold py_slice, slice_bound.
  destruct (start <? 0) eqn:H1; [lia|].
  destruct (start + chunk_size <? 0) eqn:H2; [lia|].
  destruct (decide (Z.of_nat (length iterable) ≤ start)) as [Hout|Hin].
  - rewrite !drop_ge by lia. by rewrite !take_nil.
  - replace (Z.to_nat (start `min` Z.of_nat (length iterable)))
      with (Z.to_nat start) by lia.
    destruct (decide (start + chunk_size ≤ Z.of_nat (length iterable))).
    + f_equal. lia.
    + rewrite !take_ge; [done| |]; rewrite length_drop; lia.
Qed.

Lemma loop_pages fuel iterable chunk_size i :
  0 < chunk_size → 0 ≤ i →
  (length (drop (Z.to_nat (i * chunk_size)) iterable) < fuel)%nat →
  ∃ full short,
    chunked_iterator_loop fuel iterable chunk_size i
      = (full ++ [short], Exhausted)
    ∧ concat (full ++ [short]) = drop (Z.to_nat (i * chunk_size)) iterable
    ∧ Forall (λ chunk, Z.of_nat (length chunk) = chunk_size) full
    ∧ Z.of_nat (length short) < chunk_size.
Proof.
  intros Hcs. revert i.
  induction fuel as [|fuel IH]; intros i Hi Hfuel; [lia|].
  simpl. rewrite py_slice_window by lia.
  set (rest := drop (Z.to_nat (i * chunk_size)) iterable) in *.
  destruct (Z.of_nat (length (take (Z.to_nat chunk_size) rest)) <? chunk_size)
    eqn:Hshort.
  - exists [], (take (Z.to_nat chunk_size) rest). simpl.
    apply Z.ltb_lt in Hshort.
    split; [done|]. split; [|split; [constructor|done]].
    rewrite app_nil_r. apply take_ge. rewrite length_take in Hshort. lia.
  - apply Z.ltb_ge in Hshort. rewrite length_take in Hshort.
    assert (drop (Z.to_nat ((i + 1) * chunk_size)) iterable
            = drop (Z.to_nat chunk_size) rest) as Hnext.
    { unfold rest. rewrite drop_drop. f_equal. lia. }
    destruct (IH (i + 1)) as (full & short & Hrun & Hcat & Hfull & Hlast);
      [lia| |].
    { rewrite Hnext, length_drop. lia. }
    exists (take (Z.to_nat chunk_size) rest :: full), short.
    rewrite Hrun. simpl. split; [done|].
    split; [by rewrite Hcat, Hnext, take_drop|].
    split; [|done]. constructor; [|done]. rewrite length_take. lia.
Qed.

(** C2: for every sequence and every positive chunk size, a run of
    [chunked_iterator] with more fuel than the sequence has items returns;
    the items it yields are those of the sequence, each once and in order;
    every chunk it fetched is full except the last one, which is shorter
    than [chunk_size] and after which nothing more is fetched. *)
Theorem chunked_iterator_yields_all iterable chunk_size fuel :
  0 < chunk_size →
  (length iterable < fuel)%nat →
  ∃ full short,
    chunked_iterator fuel iterable chunk_size = (full ++ [short], Exhausted)
    ∧ yielded (full ++ [short]) = iterable
    ∧ Forall (λ chunk, Z.of_nat (length chunk) = chunk_size) full
    ∧ Z.of_nat (length short) < chunk_size.
Proof.
  intros Hcs Hfuel. unfold chunked_iterator, yielded.
  assert (drop (Z.to_nat (0 * chunk_size)) iterable = iterable) as Hall.
  { replace (Z.to_nat (0 * chunk_size)) with 0%nat by lia. apply drop_0. }
  destruct (loop_pages fuel iterable chunk_size 0)
    as (full & short & Hrun & Hcat & Hfull & Hlast);
    [lia|lia|by rewrite Hall|].
  exists full, short. by rewrite Hrun, Hcat, Hall.
Qed.

End facts.

Lemma chunked_iterator_yields_all_witness :
  ∃ full short,
    chunked_iterator 5 [10; 20; 30; 40] 2 = (full ++ [short], Exhausted)
    ∧ yielded (full ++ [short]) = [10; 20; 30; 40]
    ∧ Forall (λ chunk, Z.of_nat (length chunk) = 2) full
    ∧ Z.of_nat (length short) < 2.
Proof.
  apply (chunked_iterator_yields_all [10; 20; 30; 40] 2 5); [lia|simpl; lia].
Defined.

End ChunkedFacts.

(** ** Digit counts *)

Module NumbersFacts.
Import Numbers.

Lemma len_app (s1 s2 : string) : len (s1 +:+ s2) = len s1 + len s2.
Proof.
  unfold len. induction s1 as [|c s1 IH]; simpl; [done|]. lia.
Qed.

Lemma decimal_digits_small n d : decimal_digits n d → n < 10 → d = 1.
Proof.
  intros (Hn & Hd & Hup & [->|Hlow]) Hsmall; [done|].
  destruct (decide (d = 1)) as [|Hne]; [done|]. exfalso.
  assert (10 ^ 1 ≤ 10 ^ (d - 1)) by (apply Z.pow_le_mono_r; lia). lia.
Qed.

Lemma decimal_digits_div n d :
  decimal_digits n d → 10 ≤ n → decimal_digits (n / 10) (d - 1).
Proof.
  intros (Hn & Hd & Hup & Hlow) Hbig.
  assert (2 ≤ d) as Hd2.
  { destruct (decide (d = 1)) as [->|]; [|lia]. simpl in Hup. lia. }
  destruct Hlow as [->|Hlow]; [lia|].
  assert (10 ^ d = 10 * 10 ^ (d - 1)) as Hpow.
  { rewrite <- Z.pow_succ_r by lia. f_equal. lia. }
  split; [apply Z.div_pos; lia|]. split; [lia|].
  split; [apply Z.div_lt_upper_bound; lia|].
  destruct (decide (d - 1 = 1)) as [|Hne]; [by left|right].
  assert (10 ^ (d - 1) = 10 * 10 ^ (d - 1 - 1)) as Hpow'.
  { rewrite <- Z.pow_succ_r by lia. f_equal. lia. }
  apply Z.div_le_lower_bound; lia.
Qed.

Lemma digits_len fuel n d :
  decimal_digits n d → (Z.to_nat d ≤ fuel)%nat → len (digits fuel n) = d.
Proof.
  revert n d. induction fuel as [|fuel IH]; intros n d Hd Hfuel.
  { destruct Hd as (_ & ? & _). lia. }
  simpl. destruct (n <? 10) eqn:Hsmall.
  - apply Z.ltb_lt in Hsmall. by rewrite (decimal_digits_small n d).
  - apply Z.ltb_ge in Hsmall. rewrite len_app.
    rewrite (IH (n / 10) (d - 1)); [unfold len; simpl; lia| |].
    + by apply decimal_digits_div.
    + lia.
Qed.

Lemma decimal_digits_fuel n d :
  decimal_digits n d → (Z.to_nat d ≤ S (Z.to_nat (Z.log2 n)))%nat.
Proof.
  intros (Hn & Hd & Hup & [->|Hlow]); [lia|].
  assert (2 ^ (d - 1) ≤ 10 ^ (d - 1)) by (apply Z.pow_le_mono_l; lia).
  assert (0 < 2 ^ (d - 1)) by (apply Z.pow_pos_nonneg; lia).
  assert (d - 1 ≤ Z.log2 n) by (apply Z.log2_le_pow2; lia).
  lia.
Qed.

(** [str] of a non-negative integer has as many characters as the integer
    has digits; the sign of a negative one adds a character. *)
Lemma len_str_nonneg z d : 0 ≤ z → decimal_digits z d → len (str z) = d.
Proof.
  intros Hz Hd. unfold str. destruct (z <? 0) eqn:Hneg; [lia|].
  apply digits_len; [done|]. by apply decimal_digits_fuel.
Qed.

Lemma len_str_neg z d : z < 0 → decimal_digits (- z) d → len (str z) = d + 1.
Proof.
  intros Hz Hd. unfold str. destruct (z <? 0) eqn:Hneg; [|lia].
  change (len (String "-" ?s)) with (Z.of_nat (S (String.length s))).
  pose proof (digits_len _ _ _ Hd (decimal_digits_fuel _ _ Hd)) as Hlen.
  unfold len in Hlen. lia.
Qed.

(** C9, amended: for every value with a non-negative integer part of [d]
    decimal digits, [get_number_guess_len] returns [d] when [d] is odd and
    [d - 1] when [d] is even; and for every value its result is odd. *)
Theorem get_number_guess_len_nonneg :
  (∀ value d,
     0 ≤ int value → integer_part_digits value d →
     get_number_guess_len value = if Z.odd d then d else d - 1)
  ∧ (∀ value, Z.odd (get_number_guess_len value) = true).
Proof.
  split.
  - intros value d Hz Hd. unfold integer_part_digits in Hd.
    rewrite Z.abs_eq in Hd by done.
    unfold get_number_guess_len. rewrite (len_str_nonneg _ d) by done.
    rewrite Zmod_odd. by destruct (Z.odd d).
  - intros value. unfold get_number_guess_len.
    set (guess_len := len (str (int value))). rewrite Zmod_odd.
    destruct (Z.odd guess_len) eqn:Hodd; simpl; [done|].
    rewrite Z.sub_1_r, Z.odd_pred. by rewrite <- Z.negb_odd, Hodd.
Qed.

Lemma get_number_guess_len_nonneg_witness :
  get_number_guess_len (Ratio 2467 2) = (if Z.odd 4 then 4 else 4 - 1)
  ∧ Z.odd (get_number_guess_len (Int 1233)) = true.
Proof.
  destruct get_number_guess_len_nonneg as [Hlen Hodd].
  split; [|apply Hodd].
  apply Hlen; [vm_compute; discriminate|].
  unfold integer_part_digits, decimal_digits. vm_compute.
  repeat split; try discriminate. right. discriminate.
Defined.

(** C9 as stated fails on a negative value: the integer part of -12 has
    two digits, and the result is 3, the length of the text with its
    sign. *)
Lemma get_number_guess_len_counts_sign :
  ¬ (∀ value d,
       integer_part_digits value d →
       get_number_guess_len value = if Z.odd d then d else d - 1)
  ∧ integer_part_digits (Int (-12)) 2
  ∧ get_number_guess_len (Int (-12)) = 3.
Proof.
  assert (integer_part_digits (Int (-12)) 2) as Hd.
  { unfold integer_part_digits, decimal_digits. simpl. lia. }
  split; [|split; [done|reflexivity]].
  intros Hclaim. specialize (Hclaim (Int (-12)) 2 Hd). discriminate Hclaim.
Qed.

End NumbersFacts.

(** ** Schema lookup *)

Module SchemaFacts.
Import Schema.
Section facts.
Context {Model Field : Type} (get_field : Model → string → result Field).

(** C4: [get_field_or_none] returns the field the catalog finds, returns
    [None] when the catalog raises [FieldDoesNotExist], and lets every
    other failure of the catalog through unchanged. *)
Theorem get_field_or_none_swallows_missing_only model field_name :
  (∀ f, get_field model field_name = Ok f →
        get_field_or_none get_field model field_name = Ok (Some f))
  ∧ (get_field model field_name = Raise FieldDoesNotExist →
     get_field_or_none get_field model field_name = Ok None)
  ∧ (∀ e, e ≠ FieldDoesNotExist →
          get_field model field_name = Raise e →
          get_field_or_none get_field model field_name = Raise e).
Proof.
  unfold get_field_or_none. repeat split.
  - by intros f ->.
  - by intros ->.
  - intros e Hne ->. by destruct e.
Qed.

End facts.

Lemma get_field_or_none_swallows_missing_only_witness :
  get_field_or_none Samples.sample_get_field Samples.sample_model "email"
    = Ok (Some 1%nat)
  ∧ get_field_or_none Samples.sample_get_field Samples.sample_model "phone"
    = Ok None
  ∧ get_field_or_none Samples.sample_get_field Samples.sample_model "broken"
    = Raise (OtherError "registry").
Proof.
  split; [|split].
  - apply (get_field_or_none_swallows_missing_only
             Samples.sample_get_field Samples.sample_model "email").
    vm_compute. reflexivity.
  - apply (get_field_or_none_swallows_missing_only
             Samples.sample_get_field Samples.sample_model "phone").
    vm_compute. reflexivity.
  - apply (get_field_or_none_swallows_missing_only
             Samples.sample_get_field Samples.sample_model "broken").
    + discriminate.
    + vm_compute. reflexivity.
Defined.

End SchemaFacts.

(** ** Dynamic symbol resolution *)

Module SymbolsFacts.
Import Symbols.

Lemma rsplit_dot_none s : contains_dot s = false → rsplit_dot s = None.
Proof.
  induction s as [|c s IH]; simpl; [done|].
  intros [Hc Hs]%orb_false_elim. by rewrite IH, Hc.
Qed.

(** Splitting [module_name.class_name] at the last dot gives back the two
    parts when [class_name] has no dot. *)
Lemma rsplit1_dotted module_name class_name :
  contains_dot class_name = false →
  rsplit1 (module_name +:+ String "." class_name)
  = [module_name; class_name].
Proof.
  intros Hc. unfold rsplit1.
  assert (rsplit_dot (module_name +:+ String "." class_name)
          = Some (module_name, class_name)) as ->; [|done].
  induction module_name as [|a m IH]; simpl.
  - by rewrite rsplit_dot_none.
  - by rewrite IH.
Qed.

(** Every text with a dot reads [module_name.class_name], with no dot in
    [class_name]. *)
Lemma dotted_parts s :
  contains_dot s = true →
  ∃ module_name class_name,
    s = module_name +:+ String "." class_name
    ∧ contains_dot class_name = false.
Proof.
  induction s as [|c s IH]; simpl; [done|].
  destruct (contains_dot s) eqn:Hs.
  - intros _. destruct IH as (m & k & -> & Hk); [done|].
    by exists (String c m), k.
  - rewrite orb_false_r. intros ->%Ascii.eqb_eq.
    by exists EmptyString, s.
Qed.

Lemma rsplit1_undotted s : contains_dot s = false → rsplit1 s = [s].
Proof. intros Hs. unfold rsplit1. by rewrite rsplit_dot_none. Qed.

Section facts.
Context {PyModule PyValue : Type}.
Context (import_ : string → list string → result PyModule).
Context (getattr : PyModule → string → result PyValue).

(** C5: a text with a dot reads [module_name.class_name], split at its
    last dot; [str_to_class] imports [module_name] and returns its
    attribute [class_name] when both exist, and when the import or the
    attribute lookup fails it ends with that same failure. *)
Theorem str_to_class_resolves class_string :
  contains_dot class_string = true →
  ∃ module_name class_name,
    class_string = module_name +:+ String "." class_name
    ∧ contains_dot class_name = false
    ∧ (∀ m c, import_ module_name [class_name] = Ok m →
              getattr m class_name = Ok c →
              str_to_class import_ getattr class_string = Ok c)
    ∧ (∀ e, import_ module_name [class_name] = Raise e →
            str_to_class import_ getattr class_string = Raise e)
    ∧ (∀ m e, import_ module_name [class_name] = Ok m →
              getattr m class_name = Raise e →
              str_to_class import_ getattr class_string = Raise e).
Proof.
  intros (module_name & class_name & -> & Hc)%dotted_parts.
  exists module_name, class_name. split; [done|]. split; [done|].
  unfold str_to_class. rewrite rsplit1_dotted by done.
  repeat split.
  - by intros m c -> <-.
  - by intros e ->.
  - by intros m e -> <-.
Qed.

End facts.

Lemma str_to_class_resolves_witness :
  ∃ module_name class_name,
    "gdpr.utils.str_to_class"%string
      = module_name +:+ String "." class_name
    ∧ contains_dot class_name = false
    ∧ (∀ m c, Samples.sample_import module_name [class_name] = Ok m →
              Samples.sample_getattr m class_name = Ok c →
              str_to_class Samples.sample_import Samples.sample_getattr
                "gdpr.utils.str_to_class" = Ok c)
    ∧ (∀ e, Samples.sample_import module_name [class_name] = Raise e →
            str_to_class Samples.sample_import Samples.sample_getattr
              "gdpr.utils.str_to_class" = Raise e)
    ∧ (∀ m e, Samples.sample_import module_name [class_name] = Ok m →
              Samples.sample_getattr m class_name = Raise e →
              str_to_class Samples.sample_import Samples.sample_getattr
                "gdpr.utils.str_to_class" = Raise e).
Proof.
  apply (str_to_class_resolves Samples.sample_import Samples.sample_getattr
           "gdpr.utils.str_to_class").
  vm_compute. reflexivity.
Defined.

Example sample_resolves :
  str_to_class Samples.sample_import Samples.sample_getattr
    "gdpr.utils.str_to_class" = Ok "function"%string.
Proof. reflexivity. Qed.

Example sample_missing_module :
  str_to_class Samples.sample_import Samples.sample_getattr
    "gdpr.nothing.str_to_class" = Raise ImportError.
Proof. reflexivity. Qed.

Example sample_missing_attribute :
  str_to_class Samples.sample_import Samples.sample_getattr
    "gdpr.utils.nothing" = Raise AttributeError.
Proof. reflexivity. Qed.

(** A text without a dot cannot be unpacked into two names. *)
Lemma str_to_class_undotted {PyModule PyValue : Type}
    (import_ : string → list string → result PyModule)
    (getattr : PyModule → string → result PyValue) class_string :
  contains_dot class_string = false →
  str_to_class import_ getattr class_string = Raise ValueError.
Proof.
  intros Hs. unfold str_to_class. by rewrite rsplit1_undotted.
Qed.

End SymbolsFacts.

(** ** Parent instances and versions *)

Module ReversionFacts.
Import Reversion.
Section facts.
Context {Obj ModelClass Version : Type}.
Context (get_parent_list : Obj → list ModelClass).
Context (get_path_to_parent : Obj → ModelClass → list PathInfo).
Context (attribute : Obj → string → option (@value Obj)).
Context (get_for_object : @value Obj → list Version).

Local Abbreviation follow := (follow attribute).
Local Abbreviation parent_paths := (parent_paths get_parent_list get_path_to_parent).
Local Abbreviation get_all_parent_objects :=
  (get_all_parent_objects get_parent_list get_path_to_parent attribute).
Local Abbreviation get_all_obj_and_parent_versions_queryset_list :=
  (get_all_obj_and_parent_versions_queryset_list
     get_parent_list get_path_to_parent attribute get_for_object).
Local Abbreviation get_all_obj_and_parent_versions :=
  (get_all_obj_and_parent_versions
     get_parent_list get_path_to_parent attribute get_for_object).

(** Once a step has given [None], the rest of the path gives [None]. *)
Lemma walk_from_none (path : list string) :
  fold_left (λ parent_obj attr, getattr attribute parent_obj attr PyNone)
            path PyNone = PyNone.
Proof. induction path as [|a path IH]; simpl; done. Qed.

Lemma follow_app obj (pre post : list string) :
  follow obj (pre ++ post)
  = fold_left (λ parent_obj attr, getattr attribute parent_obj attr PyNone)
              post (follow obj pre).
Proof. unfold Reversion.follow. apply fold_left_app. Qed.

(** The appending loop collects one value per path, in order. *)
Lemma collect_loop {X Y} (f : X → Y) (xs : list X) (acc : list Y) :
  fold_left (λ ys x, ys ++ [f x]) xs acc = acc ++ (f <$> xs).
Proof.
  revert acc. induction xs as [|x xs IH]; intros acc; simpl.
  - by rewrite app_nil_r.
  - rewrite IH. by rewrite <- app_assoc.
Qed.

Lemma is_not_none_spec (v : @value Obj) : is_not_none v = true ↔ v ≠ PyNone.
Proof. destruct v; simpl; split; done. Qed.

Lemma get_all_parent_objects_eq obj :
  get_all_parent_objects obj
  = List.filter is_not_none (follow obj <$> parent_paths obj).
Proof.
  unfold Reversion.get_all_parent_objects. by rewrite collect_loop.
Qed.

Local Abbreviation walk :=
  (fold_left (λ parent_obj attr, getattr attribute parent_obj attr PyNone)).
Local Abbreviation names_of path :=
  ((λ path_info, name (join_field path_info)) <$> path).
Local Abbreviation found v :=
  (match v with PyNone => None | Instance o => Some o end).

(** What the walk ends on tells which of the two happened. *)
Lemma walk_outcome (path : list string) (v : @value Obj) :
  match walk path v with
  | Instance parent => reaches attribute v path (Instance parent)
  | PyNone => absent_on attribute v path
  end.
Proof.
  revert v. induction path as [|attr path IH]; intros v; simpl.
  { destruct v; constructor. }
  destruct v as [|o]; simpl.
  { rewrite walk_from_none. constructor. }
  destruct (attribute o attr) as [x|] eqn:Hattr.
  - specialize (IH x). destruct (walk path x).
    + by eapply absent_later.
    + by eapply reaches_cons.
  - rewrite walk_from_none. by apply absent_missing.
Qed.

Lemma reaches_walk (path : list string) (v w : @value Obj) :
  reaches attribute v path w → walk path v = w.
Proof.
  induction 1 as [v|o attr x path v Hattr _ IH]; simpl; [done|].
  by rewrite Hattr.
Qed.

(** The two outcomes exclude each other. *)
Lemma reaches_not_absent (path : list string) (v : @value Obj) parent :
  reaches attribute v path (Instance parent) → ¬ absent_on attribute v path.
Proof.
  intros Hreach Habsent. apply reaches_walk in Hreach.
  induction Habsent as [path|o attr path Hattr|o attr x path Hattr _ IH];
    simpl in Hreach.
  - by rewrite walk_from_none in Hreach.
  - rewrite Hattr in Hreach. by rewrite walk_from_none in Hreach.
  - rewrite Hattr in Hreach. by apply IH.
Qed.

Lemma parents_outcomes obj (parent_models : list ModelClass) :
  List.filter is_not_none
    (follow obj <$>
       ((λ parent_path, names_of parent_path)
          <$> ((λ parent_model, get_path_to_parent obj parent_model)
                 <$> parent_models)))
  = Instance <$>
      omap id ((λ parent_model,
                  found (follow obj
                           (names_of (get_path_to_parent obj parent_model))))
                 <$> parent_models).
Proof.
  induction parent_models as [|m ms IH]; csimpl; [done|].
  destruct (follow obj (names_of (get_path_to_parent obj m))); csimpl;
    by rewrite IH.
Qed.

(** C6: [get_all_parent_objects] takes the parent models of the object in
    order; for each it walks the field names of the path to that parent
    from the object, one attribute lookup per name; it returns, in that
    order, exactly the parents so reached, and leaves out every parent
    whose path meets an absent value at some step ([None], or a missing
    attribute); no entry of the returned list is [None]. *)
Theorem get_all_parent_objects_reached obj :
  (∃ outcomes : list (option Obj),
     Forall2 (λ parent_model outcome,
                match outcome with
                | Some parent =>
                    reaches attribute (Instance obj)
                      (names_of (get_path_to_parent obj parent_model))
                      (Instance parent)
                | None =>
                    absent_on attribute (Instance obj)
                      (names_of (get_path_to_parent obj parent_model))
                end)
             (get_parent_list obj) outcomes
     ∧ get_all_parent_objects obj = Instance <$> omap id outcomes)
  ∧ Forall (λ v, v ≠ PyNone) (get_all_parent_objects obj)
  ∧ (∀ parent,
       Instance parent ∈ get_all_parent_objects obj
       ↔ ∃ parent_model,
           parent_model ∈ get_parent_list obj
           ∧ reaches attribute (Instance obj)
               (names_of (get_path_to_parent obj parent_model))
               (Instance parent)).
Proof.
  assert (get_all_parent_objects obj
          = Instance <$>
              omap id ((λ parent_model,
                          found (follow obj
                            (names_of (get_path_to_parent obj parent_model))))
                         <$> get_parent_list obj)) as Heq.
  { rewrite get_all_parent_objects_eq. apply parents_outcomes. }
  split; [|split].
  - eexists. split; [|exact Heq].
    apply Forall2_fmap_r, Forall_Forall2_diag, Forall_forall.
    intros parent_model _.
    pose proof (walk_outcome
                  (names_of (get_path_to_parent obj parent_model))
                  (Instance obj)) as Hout.
    unfold Reversion.follow, compose. simpl. by destruct (walk _ _).
  - rewrite Heq. apply Forall_forall.
    by intros v (parent & -> & _)%list_elem_of_fmap.
  - intros parent. rewrite Heq. split.
    + intros (p & [= <-] & Hp)%list_elem_of_fmap.
      apply list_elem_of_omap in Hp as (outcome & Hin & Hsome).
      simpl in Hsome. subst outcome.
      apply list_elem_of_fmap in Hin as (parent_model & Hfound & Hin).
      exists parent_model. split; [done|].
      pose proof (walk_outcome
                    (names_of (get_path_to_parent obj parent_model))
                    (Instance obj)) as Hout.
      unfold Reversion.follow in Hfound.
      destruct (walk _ _); [done|]. by injection Hfound as ->.
    + intros (parent_model & Hin & Hreach).
      apply list_elem_of_fmap_2, list_elem_of_omap.
      exists (Some parent). split; [|done].
      apply list_elem_of_fmap. exists parent_model. split; [|done].
      unfold Reversion.follow. by rewrite (reaches_walk _ _ _ Hreach).
Qed.

(** The nested comprehension flattens the list of lists. *)
Lemma flatten_loop {X} (lists : list (list X)) (acc : list X) :
  fold_left (λ items sublist,
               fold_left (λ items item, items ++ [item]) sublist items)
            lists acc
  = acc ++ concat lists.
Proof.
  revert acc. induction lists as [|l lists IH]; intros acc; simpl.
  - by rewrite app_nil_r.
  - rewrite IH, (collect_loop id), list_fmap_id. by rewrite <- app_assoc.
Qed.

(** C7: [get_all_obj_and_parent_versions] is the flattening of
    [get_all_obj_and_parent_versions_queryset_list]: the version lists of
    the discovered ancestors, then the object's own, each fetched from the
    version store and each kept whole and in its own order. *)
Theorem get_all_obj_and_parent_versions_flattens obj :
  get_all_obj_and_parent_versions obj
    = concat (get_all_obj_and_parent_versions_queryset_list obj)
  ∧ get_all_obj_and_parent_versions obj
    = concat (get_for_object <$> get_all_parent_objects obj)
        ++ get_for_object (Instance obj)
  ∧ Forall (λ versions,
              ∃ before after,
                get_all_obj_and_parent_versions obj
                = before ++ versions ++ after)
      (get_all_obj_and_parent_versions_queryset_list obj).
Proof.
  assert (get_all_obj_and_parent_versions obj
          = concat (get_all_obj_and_parent_versions_queryset_list obj))
    as Hflat.
  { unfold Reversion.get_all_obj_and_parent_versions.
    by rewrite flatten_loop. }
  split; [exact Hflat|]. split.
  - rewrite Hflat.
    unfold Reversion.get_all_obj_and_parent_versions_queryset_list,
      get_reversion_versions.
    rewrite concat_app. simpl. by rewrite app_nil_r.
  - rewrite Hflat. apply Forall_forall. intros versions Hin.
    apply list_elem_of_split in Hin as (l1 & l2 & ->).
    exists (concat l1), (concat l2). by rewrite concat_app.
Qed.

End facts.

Lemma get_all_parent_objects_reached_witness :
  Instance 1%nat
  ∈ Reversion.get_all_parent_objects
      Samples.sample_parent_list Samples.sample_path_to_parent
      Samples.sample_attribute 0%nat.
Proof.
  apply (get_all_parent_objects_reached
           Samples.sample_parent_list Samples.sample_path_to_parent
           Samples.sample_attribute 0%nat).
  exists "Place"%string. split.
  - apply (bool_decide_unpack _). vm_compute. reflexivity.
  - eapply reaches_cons; [reflexivity|]. apply reaches_nil.
Defined.

Example sample_parents :
  Reversion.get_all_parent_objects
    Samples.sample_parent_list Samples.sample_path_to_parent
    Samples.sample_attribute 0%nat
  = [Instance 1%nat].
Proof. reflexivity. Qed.

End ReversionFacts.

(** ** The stream wrapper *)

Module ProgressBarFacts.
Import ProgressBar.
Section facts.
Context {Stream Arg Ret : Type} (str_arg : string → Arg).
Implicit Types (self : @ProgressBarStream Stream Arg Ret)
               (args : list Arg) (kwargs : gmap string Arg) (σ : Stream).

(** C8, amended: a [write] call that passes no [ending] keyword of its own
    is the wrapped stream's [write] with the same arguments and
    [ending=""], result and effect on the stream included; [flush] is the
    wrapped stream's [flush] with no arguments; and the wrapper holds the
    stream it was given. *)
Theorem write_forwards_without_ending self args kwargs σ :
  kwargs !! "ending"%string = None →
  write str_arg self args kwargs σ
    = stream_write (stream self) args
        (<["ending"%string := str_arg ""]> kwargs) σ
  ∧ flush self σ = stream_flush (stream self) [] ∅ σ
  ∧ ∀ wrapped : @OutputStream Stream Arg Ret, stream (init wrapped) = wrapped.
Proof.
  intros Hfree. unfold write, call_with_ending. by rewrite Hfree.
Qed.

(** A caller's own [ending] keyword is refused before the stream is
    reached. *)
Lemma write_refuses_ending self args kwargs σ :
  is_Some (kwargs !! "ending"%string) →
  write str_arg self args kwargs σ = (Raise TypeError, σ).
Proof.
  intros [v Hv]. unfold write, call_with_ending. by rewrite Hv.
Qed.

End facts.

Lemma write_forwards_without_ending_witness :
  write id (init Samples.sample_stream) ["50%"%string] ∅ []
    = stream_write Samples.sample_stream ["50%"%string]
        (<["ending"%string := ""%string]> ∅) []
  ∧ flush (init Samples.sample_stream) []
    = stream_flush Samples.sample_stream [] ∅ []
  ∧ ∀ wrapped : @OutputStream (list string) string unit,
      stream (init wrapped) = wrapped.
Proof.
  apply (write_forwards_without_ending id (init Samples.sample_stream)
           ["50%"%string] ∅ []).
  reflexivity.
Defined.

Example sample_write :
  write id (init Samples.sample_stream) ["50%"%string] ∅ []
  = (Ok (), ["50%"%string]).
Proof. reflexivity. Qed.

(** C8 as stated fails on a write call that passes [ending] itself: the
    call raises [TypeError] and the stream is left as it was, where
    forwarding would have written the text. *)
Lemma write_with_ending_keyword_raises :
  ¬ (∀ (self : @ProgressBarStream (list string) string unit)
       (args : list string) (kwargs : gmap string string) (σ : list string),
       write id self args kwargs σ
       = stream_write (stream self) args
           (<["ending"%string := ""%string]> kwargs) σ)
  ∧ write id (init Samples.sample_stream) ["50%"%string]
      {["ending"%string := "!"%string]} []
    = (Raise TypeError, []).
Proof.
  split; [|reflexivity].
  intros Hclaim.
  specialize (Hclaim (init Samples.sample_stream) ["50%"%string]
                {["ending"%string := "!"%string]} []).
  vm_compute in Hclaim. discriminate Hclaim.
Qed.

End ProgressBarFacts.

(** * Further properties *)

(** ** Keyset pagination beyond distinct positive keys *)

Module QuerySetMore.
Import QuerySet QuerySetFacts.
Section more.
Context {Row : Type} (pk : Row → Z).
Implicit Types (queryset rest : list Row) (start_pk end_pk chunk_size : Z).

Lemma loop_nonempty fuel queryset chunk_size start_pk :
  StronglySorted (pk_le pk) queryset →
  Forall (λ it, it_chunk it ≠ [])
    (chunked_queryset_loop pk fuel queryset chunk_size start_pk).1.
Proof.
  intros Hsorted. revert start_pk.
  induction fuel as [|fuel IH]; intros start_pk; simpl; [constructor|].
  destruct (chunked_queryset_step _ _ _ _) as [| |chunk end_pk] eqn:Hstep;
    simpl; [constructor..|].
  constructor; [|apply IH]. simpl.
  apply step_yield in Hstep as (_ & _ & r & Hr); [|done].
  intros ->. by apply not_elem_of_nil in Hr.
Qed.

(** With distinct keys, a turn that leaves rows to fetch yielded a full
    chunk. *)
Lemma step_full queryset chunk_size start_pk chunk end_pk :
  StronglySorted (pk_lt pk) queryset →
  StronglySorted (pk_le pk) queryset →
  chunked_queryset_step pk queryset chunk_size start_pk = Yield chunk end_pk →
  filter_pk_gt pk end_pk queryset ≠ [] →
  Z.of_nat (length chunk) = chunk_size.
Proof.
  intros Hstrict Hsorted. unfold chunked_queryset_step.
  assert (StronglySorted (pk_lt pk) (filter_pk_gt pk start_pk queryset))
    as Hrest by (by apply sorted_filter).
  destruct (filter_pk_gt pk start_pk queryset) as [|r0 rest]; [done|].
  simpl negb. cbv iota.
  unfold getitem. destruct (chunk_size - 1 <? 0) eqn:Hneg; [done|].
  unfold values_list_pk. rewrite list_lookup_fmap.
  destruct ((r0 :: rest) !! Z.to_nat (chunk_size - 1)) as [x|] eqn:Hx; simpl.
  - intros [= <- <-] _. rewrite (strict_prefix_length _ _ _ _ Hrest Hx). lia.
  - rewrite fmap_last. destruct (last queryset) as [y|] eqn:Hy; simpl; [|done].
    intros [= <- <-] Hleft. exfalso. apply Hleft. apply filter_none.
    eapply Forall_impl; [by apply (sorted_last_max pk queryset y)|].
    simpl. intros; lia.
Qed.

Lemma loop_full fuel queryset chunk_size start_pk init last_it :
  StronglySorted (pk_lt pk) queryset →
  StronglySorted (pk_le pk) queryset →
  (chunked_queryset_loop pk fuel queryset chunk_size start_pk).1
    = init ++ [last_it] →
  Forall (λ it, Z.of_nat (length (it_chunk it)) = chunk_size) init.
Proof.
  intros Hstrict Hsorted. revert start_pk init.
  induction fuel as [|fuel IH]; intros start_pk init; simpl.
  { by destruct init. }
  destruct (chunked_queryset_step _ _ _ _) as [| |chunk end_pk] eqn:Hstep;
    simpl; [by destruct init..|].
  destruct init as [|it init]; simpl; [constructor|].
  intros [= <- Htail]. constructor; [|by eapply IH]. simpl.
  eapply step_full; [done..|].
  intros Hnone. destruct fuel as [|fuel']; simpl in Htail.
  { by destruct init. }
  assert (chunked_queryset_step pk queryset chunk_size end_pk = Stop) as Hstop.
  { apply step_stop. apply Forall_forall. intros r Hr.
    destruct (decide (pk r ≤ end_pk)) as [|Hgt]; [done|]. exfalso.
    eapply (filter_nil_not_elem_of _ _ r Hnone); [|done]. simpl. lia. }
  rewrite Hstop in Htail. by destruct init.
Qed.

(** Turns chained from a cursor keep their chunks apart: rows of an
    earlier turn have smaller keys than rows of a later one. *)
Lemma chain_separates start (its : list (@iteration Row)) i j iti itj :
  cursor_chain start its →
  Forall (λ it, Forall (λ r, it_start it < pk r ≤ it_end it) (it_chunk it))
         its →
  (i < j)%nat → its !! i = Some iti → its !! j = Some itj →
  Forall (λ r, Forall (λ r', pk r < pk r') (it_chunk itj)) (it_chunk iti).
Proof.
  revert start i j. induction its as [|it its IH]; intros start i j; [done|].
  simpl. intros (Hstart & Hlt & Hchain) Hkeys Hij Hi Hj.
  apply Forall_cons in Hkeys as [Hit Hkeys].
  destruct j as [|j]; [lia|]. simpl in Hj.
  destruct i as [|i]; simpl in Hi.
  - injection Hi as ->.
    pose proof (chain_start_ge _ _ Hchain) as Hge.
    rewrite Forall_forall in Hge, Hkeys.
    assert (itj ∈ its) as Hin by (eapply list_elem_of_lookup_2, Hj).
    specialize (Hge _ Hin). specialize (Hkeys _ Hin).
    eapply Forall_impl; [exact Hit|]. simpl. intros r Hr.
    eapply Forall_impl; [exact Hkeys|]. simpl. intros; lia.
  - eapply (IH (it_end it) i j); [done|done|lia|done|done].
Qed.

Lemma chunks_total_length (init : list (@iteration Row)) chunk_size :
  Forall (λ it, Z.of_nat (length (it_chunk it)) = chunk_size) init →
  Z.of_nat (length (concat (chunks init)))
  = chunk_size * Z.of_nat (length init).
Proof.
  unfold chunks. induction 1 as [|it init Hit _ IH]; csimpl; [lia|].
  rewrite length_app. lia.
Qed.

(** Rows with distinct keys are told apart by their keys. *)
Lemma distinct_keys_inj queryset x y :
  NoDup (pk <$> queryset) → x ∈ queryset → y ∈ queryset →
  pk x = pk y → x = y.
Proof.
  induction queryset as [|a l IH]; intros Hnd Hx Hy Heq.
  { by apply not_elem_of_nil in Hx. }
  rewrite fmap_cons in Hnd. apply NoDup_cons in Hnd as [Ha Hnd].
  apply elem_of_cons in Hx as [->|Hx];
    apply elem_of_cons in Hy as [->|Hy]; [done| | |by apply IH].
  - exfalso. apply Ha. rewrite Heq. by apply list_elem_of_fmap_2.
  - exfalso. apply Ha. rewrite <- Heq. by apply list_elem_of_fmap_2.
Qed.

Lemma order_by_pk_unique q1 q2 :
  NoDup (pk <$> q1) → q1 ≡ₚ q2 → order_by_pk pk q1 = order_by_pk pk q2.
Proof.
  intros Hnd Hperm.
  apply (StronglySorted_unique_strong (pk_le pk));
    [|apply order_by_pk_sorted..|].
  - intros x1 x2 Hx1 Hx2 H12 H21. unfold pk_le in *.
    apply (distinct_keys_inj q1); [done| | |lia].
    + by rewrite <- (order_by_pk_perm pk q1).
    + by rewrite Hperm, <- (order_by_pk_perm pk q2).
  - by rewrite !order_by_pk_perm.
Qed.

(** X1: for any queryset (keys may repeat, may be zero or negative) and a
    positive chunk size, a run with more fuel than the queryset has rows
    returns, and its chunks put end to end are the rows with a positive
    key, each as often as the queryset has it, in key order. *)
Theorem chunked_queryset_yields_positive_rows queryset chunk_size fuel :
  0 < chunk_size →
  (length queryset < fuel)%nat →
  (chunked_queryset pk fuel queryset chunk_size).2 = Exhausted
  ∧ concat (chunks (chunked_queryset pk fuel queryset chunk_size).1)
    ≡ₚ filter (λ r, 0 < pk r) queryset
  ∧ StronglySorted (pk_le pk)
      (concat (chunks (chunked_queryset pk fuel queryset chunk_size).1)).
Proof.
  intros Hcs Hfuel. unfold chunked_queryset.
  pose proof (order_by_pk_sorted pk queryset) as Hsorted.
  pose proof (loop_exhausts pk fuel _ chunk_size 0 Hcs
                (run_is_over pk queryset chunk_size fuel Hfuel)) as Hdone.
  split; [done|]. rewrite (loop_concat pk) by done.
  split; [|by apply sorted_filter].
  unfold filter_pk_gt. by rewrite (order_by_pk_perm pk queryset).
Qed.

(** X2: with a chunk size of zero or less, a queryset that has a row with
    a positive key makes the run raise on its first turn, before any chunk
    is yielded. *)
Theorem chunked_queryset_nonpositive_chunk_size queryset chunk_size fuel r :
  chunk_size ≤ 0 → r ∈ queryset → 0 < pk r →
  chunked_queryset pk (S fuel) queryset chunk_size = ([], Raised ValueError).
Proof.
  intros Hcs Hr Hpos. unfold chunked_queryset. simpl.
  unfold chunked_queryset_step.
  destruct (filter_pk_gt pk 0 (order_by_pk pk queryset)) as [|r0 rest] eqn:Hf.
  - exfalso. eapply (filter_nil_not_elem_of _ _ r Hf); [done|].
    by rewrite (order_by_pk_perm pk queryset).
  - simpl. unfold getitem.
    by destruct (chunk_size - 1 <? 0) eqn:Hneg; [|lia].
Qed.

(** X3: when no row has a positive key (an empty queryset included), the
    run returns on its first turn without yielding, whatever the chunk
    size, zero and negative ones included. *)
Theorem chunked_queryset_nothing_to_fetch queryset chunk_size fuel :
  Forall (λ r, pk r ≤ 0) queryset →
  chunked_queryset pk (S fuel) queryset chunk_size = ([], Exhausted).
Proof.
  intros Hall. unfold chunked_queryset. simpl.
  assert (chunked_queryset_step pk (order_by_pk pk queryset) chunk_size 0
          = Stop) as ->; [|done].
  apply step_stop. by rewrite (order_by_pk_perm pk queryset).
Qed.

(** X4: no chunk yielded is empty; and when the keys are distinct, every
    chunk but the last yielded has exactly [chunk_size] rows. *)
Theorem chunked_queryset_full_chunks queryset chunk_size fuel :
  Forall (λ it, it_chunk it ≠ [])
    (chunked_queryset pk fuel queryset chunk_size).1
  ∧ (NoDup (pk <$> queryset) →
     ∀ init last_it,
       (chunked_queryset pk fuel queryset chunk_size).1 = init ++ [last_it] →
       Forall (λ it, Z.of_nat (length (it_chunk it)) = chunk_size) init).
Proof.
  unfold chunked_queryset.
  pose proof (order_by_pk_sorted pk queryset) as Hsorted.
  split; [by apply loop_nonempty|].
  intros Hnd init last_it Hrun.
  eapply loop_full; [|done|done].
  apply sorted_distinct_strict; [done|].
  by rewrite (order_by_pk_perm pk queryset).
Qed.

(** X5: chunks never overlap in keys: every row of an earlier chunk has a
    strictly smaller key than every row of a later chunk, so rows that
    share a key are always yielded in the same chunk. *)
Theorem chunked_queryset_chunks_apart queryset chunk_size fuel i j iti itj :
  (i < j)%nat →
  (chunked_queryset pk fuel queryset chunk_size).1 !! i = Some iti →
  (chunked_queryset pk fuel queryset chunk_size).1 !! j = Some itj →
  Forall (λ r, Forall (λ r', pk r < pk r') (it_chunk itj)) (it_chunk iti).
Proof.
  unfold chunked_queryset.
  pose proof (order_by_pk_sorted pk queryset) as Hsorted.
  apply (chain_separates 0); [by apply loop_chain|by apply loop_keys].
Qed.

(** X6: the run depends on which rows the queryset holds, not on the order
    they come in: two querysets with distinct keys that are permutations
    of each other give the same chunks, cursors and outcome. *)
Theorem chunked_queryset_order_independent q1 q2 chunk_size fuel :
  NoDup (pk <$> q1) → q1 ≡ₚ q2 →
  chunked_queryset pk fuel q1 chunk_size
  = chunked_queryset pk fuel q2 chunk_size.
Proof.
  intros Hnd Hperm. unfold chunked_queryset.
  by rewrite (order_by_pk_unique q1 q2).
Qed.

(** X7: for distinct, strictly positive keys and a positive chunk size,
    the number of chunks yielded is the number of rows divided by the
    chunk size, rounded up: no trailing empty chunk is ever fetched. *)
Theorem chunked_queryset_chunk_count queryset chunk_size fuel :
  NoDup (pk <$> queryset) →
  Forall (λ r, 0 < pk r) queryset →
  0 < chunk_size →
  (length queryset < fuel)%nat →
  Z.of_nat (length (chunked_queryset pk fuel queryset chunk_size).1)
  = (Z.of_nat (length queryset) + chunk_size - 1) / chunk_size.
Proof.
  intros Hnd Hpos Hcs Hfuel. unfold chunked_queryset.
  pose proof (order_by_pk_sorted pk queryset) as Hsorted.
  pose proof (order_by_pk_perm pk queryset) as Hperm.
  assert (StronglySorted (pk_lt pk) (order_by_pk pk queryset)) as Hstrict.
  { apply sorted_distinct_strict; [done|]. by rewrite Hperm. }
  pose proof (loop_exhausts pk fuel _ chunk_size 0 Hcs
                (run_is_over pk queryset chunk_size fuel Hfuel)) as Hdone.
  pose proof (loop_concat pk fuel _ chunk_size 0 Hsorted Hdone) as Hcat.
  unfold filter_pk_gt in Hcat.
  rewrite filter_all in Hcat by (by rewrite Hperm).
  pose proof (loop_nonempty fuel _ chunk_size 0 Hsorted) as Hne.
  pose proof (loop_chunk_lengths pk fuel _ chunk_size 0 Hstrict) as Hle.
  pose proof (λ init last_it,
                loop_full fuel _ chunk_size 0 init last_it Hstrict Hsorted)
    as Hfull.
  apply (f_equal length) in Hcat.
  rewrite (Permutation_length Hperm) in Hcat. rewrite <- Hcat.
  destruct (chunked_queryset_loop pk fuel (order_by_pk pk queryset)
              chunk_size 0).1 as [|last_it init _] using rev_ind.
  - simpl. symmetry. apply Z.div_small. lia.
  - specialize (Hfull init last_it eq_refl).
    apply Forall_app in Hne as [_ Hne]. apply Forall_inv in Hne.
    apply Forall_app in Hle as [_ Hle]. apply Forall_inv in Hle.
    unfold chunks. rewrite fmap_app, concat_app, !length_app. simpl.
    rewrite app_nil_r.
    pose proof (chunks_total_length init chunk_size Hfull) as Hinit.
    unfold chunks in Hinit.
    assert (0 < Z.of_nat (length (it_chunk last_it))).
    { destruct (it_chunk last_it); [done|simpl; lia]. }
    apply (Z.div_unique _ _ _
             (Z.of_nat (length (it_chunk last_it)) - 1)); lia.
Qed.

End more.

Lemma chunked_queryset_yields_positive_rows_witness :
  (chunked_queryset id 7 [2; -1; 2; 0; 5; 1] 2).2 = Exhausted
  ∧ concat (chunks (chunked_queryset id 7 [2; -1; 2; 0; 5; 1] 2).1)
    ≡ₚ filter (λ r, 0 < id r) [2; -1; 2; 0; 5; 1]
  ∧ StronglySorted (pk_le id)
      (concat (chunks (chunked_queryset id 7 [2; -1; 2; 0; 5; 1] 2).1)).
Proof.
  apply (chunked_queryset_yields_positive_rows id [2; -1; 2; 0; 5; 1] 2 7);
    [lia|simpl; lia].
Defined.

Lemma chunked_queryset_nonpositive_chunk_size_witness :
  chunked_queryset id 1 [-4; 3] 0 = ([], Raised ValueError).
Proof.
  apply (chunked_queryset_nonpositive_chunk_size id [-4; 3] 0 0 3);
    [lia| |simpl; lia].
  apply (bool_decide_unpack _). vm_compute. reflexivity.
Defined.

Lemma chunked_queryset_nothing_to_fetch_witness :
  chunked_queryset id 1 [-4; 0] (-2) = ([], Exhausted).
Proof.
  apply (chunked_queryset_nothing_to_fetch id [-4; 0] (-2) 0).
  apply (bool_decide_unpack _). vm_compute. reflexivity.
Defined.

Lemma chunked_queryset_full_chunks_witness :
  Forall (λ it, Z.of_nat (length (it_chunk it)) = 2)
    [Iteration 0 [1; 2] 2; Iteration 2 [3; 4] 4].
Proof.
  apply (chunked_queryset_full_chunks id [5; 3; 1; 4; 2] 2 6)
    with (last_it := Iteration 4 [5] 5).
  - apply (bool_decide_unpack _). vm_compute. reflexivity.
  - reflexivity.
Defined.

Lemma chunked_queryset_chunks_apart_witness :
  Forall (λ r, Forall (λ r', id r < id r') [3]) [1; 2; 2].
Proof.
  apply (chunked_queryset_chunks_apart id [2; 3; 1; 2] 2 5 0 1
           (Iteration 0 [1; 2; 2] 2) (Iteration 2 [3] 3));
    [lia|reflexivity|reflexivity].
Defined.

Lemma chunked_queryset_order_independent_witness :
  chunked_queryset id 4 [3; 1; 2] 2 = chunked_queryset id 4 [2; 3; 1] 2.
Proof.
  apply (chunked_queryset_order_independent id [3; 1; 2] [2; 3; 1] 2 4).
  - apply (bool_decide_unpack _). vm_compute. reflexivity.
  - apply (bool_decide_unpack _). vm_compute. reflexivity.
Defined.

Lemma chunked_queryset_chunk_count_witness :
  Z.of_nat (length (chunked_queryset id 5 [4; 2; 1; 3] 2).1)
  = (Z.of_nat (length [4; 2; 1; 3]) + 2 - 1) / 2.
Proof.
  apply (chunked_queryset_chunk_count id [4; 2; 1; 3] 2 5).
  - apply (bool_decide_unpack _). vm_compute. reflexivity.
  - apply (bool_decide_unpack _). vm_compute. reflexivity.
  - lia.
  - simpl; lia.
Defined.

End QuerySetMore.

(** ** Paging a sequence: fetch counts and bad chunk sizes *)

Module ChunkedMore.
Import Chunked ChunkedFacts.
Section more.
Context {A : Type}.
Implicit Types (iterable chunk : list A) (chunk_size start i : Z).

Lemma loop_never_breaks fuel iterable chunk_size i :
  chunk_size ≤ 0 →
  (chunked_iterator_loop fuel iterable chunk_size i).2 = Running
  ∧ length (chunked_iterator_loop fuel iterable chunk_size i).1 = fuel.
Proof.
  intros Hcs. revert i. induction fuel as [|fuel IH]; intros i; [done|].
  simpl.
  destruct (Z.of_nat (length (py_slice iterable (i * chunk_size)
                                (i * chunk_size + chunk_size)))
            <? chunk_size) eqn:Hlt; [apply Z.ltb_lt in Hlt; lia|].
  simpl. destruct (IH (i + 1)) as [-> ->]. done.
Qed.

Lemma full_chunks_length (full : list (list A)) chunk_size :
  Forall (λ chunk, Z.of_nat (length chunk) = chunk_size) full →
  Z.of_nat (length (concat full)) = chunk_size * Z.of_nat (length full).
Proof.
  induction 1 as [|chunk full Hc _ IH]; simpl; [lia|].
  rewrite length_app. lia.
Qed.

(** X8: with a chunk size of zero or less the loop never meets its stop
    test: however many turns it is given, the run is still going and has
    fetched one chunk per turn. *)
Theorem chunked_iterator_never_returns iterable chunk_size fuel :
  chunk_size ≤ 0 →
  (chunked_iterator fuel iterable chunk_size).2 = Running
  ∧ length (chunked_iterator fuel iterable chunk_size).1 = fuel.
Proof. intros Hcs. by apply loop_never_breaks. Qed.

(** X9: for a positive chunk size the run fetches one chunk more than the
    sequence holds full chunks, and the last chunk holds the remainder: a
    sequence whose length is a multiple of the chunk size (the empty one
    included) costs a final, empty fetch. *)
Theorem chunked_iterator_fetch_count iterable chunk_size fuel :
  0 < chunk_size →
  (length iterable < fuel)%nat →
  ∃ full short,
    (chunked_iterator fuel iterable chunk_size).1 = full ++ [short]
    ∧ Z.of_nat (length full) = Z.of_nat (length iterable) / chunk_size
    ∧ Z.of_nat (length short) = Z.of_nat (length iterable) mod chunk_size.
Proof.
  intros Hcs Hfuel. unfold chunked_iterator.
  assert (drop (Z.to_nat (0 * chunk_size)) iterable = iterable) as Hall.
  { replace (Z.to_nat (0 * chunk_size)) with 0%nat by lia. apply drop_0. }
  destruct (loop_pages fuel iterable chunk_size 0)
    as (full & short & Hrun & Hcat & Hfull & Hlast);
    [lia|lia|by rewrite Hall|].
  exists full, short. rewrite Hrun. split; [done|].
  rewrite Hall in Hcat. apply (f_equal length) in Hcat.
  rewrite concat_app, length_app in Hcat. simpl in Hcat.
  rewrite app_nil_r in Hcat.
  pose proof (full_chunks_length full chunk_size Hfull) as Hlen.
  split.
  - apply (Z.div_unique _ _ _ (Z.of_nat (length short))); lia.
  - apply (Z.mod_unique _ _ (Z.of_nat (length full))); lia.
Qed.

End more.

Lemma chunked_iterator_never_returns_witness :
  (chunked_iterator 9 [10; 20; 30] 0).2 = Running
  ∧ length (chunked_iterator 9 [10; 20; 30] 0).1 = 9%nat.
Proof.
  apply (chunked_iterator_never_returns [10; 20; 30] 0 9). lia.
Defined.

Lemma chunked_iterator_fetch_count_witness :
  ∃ full short,
    (chunked_iterator 5 [10; 20; 30; 40] 2).1 = full ++ [short]
    ∧ Z.of_nat (length full) = Z.of_nat (length [10; 20; 30; 40]) / 2
    ∧ Z.of_nat (length short) = Z.of_nat (length [10; 20; 30; 40]) mod 2.
Proof.
  apply (chunked_iterator_fetch_count [10; 20; 30; 40] 2 5); [lia|simpl; lia].
Defined.

End ChunkedMore.

(** ** Texts without a dot *)

Module SymbolsMore.
Import Symbols SymbolsFacts.

(** X10: a text without a dot cannot be unpacked into a module and a
    name: [str_to_class] raises [ValueError] whatever the import system
    holds, and so without consulting it. *)
Theorem str_to_class_needs_a_dot {PyModule PyValue : Type} class_string :
  contains_dot class_string = false →
  ∀ (import_ : string → list string → result PyModule)
    (getattr : PyModule → string → result PyValue),
    str_to_class import_ getattr class_string = Raise ValueError.
Proof.
  intros Hs import_ getattr. unfold str_to_class.
  by rewrite rsplit1_undotted.
Qed.

Lemma str_to_class_needs_a_dot_witness :
  str_to_class Samples.sample_import Samples.sample_getattr "utils"
  = Raise ValueError.
Proof.
  apply (str_to_class_needs_a_dot "utils"). reflexivity.
Defined.

End SymbolsMore.

(** ** Digit counts of negative values, and bounds *)

Module NumbersMore.
Import Numbers NumbersFacts.

Lemma digits_nonempty fuel n : 1 ≤ len (digits (S fuel) n).
Proof.
  simpl. destruct (n <? 10); [unfold len; simpl; lia|].
  rewrite len_app. unfold len. simpl. lia.
Qed.

Lemma str_nonempty z : 1 ≤ len (str z).
Proof.
  unfold str. destruct (z <? 0).
  - pose proof (digits_nonempty (Z.to_nat (Z.log2 (- z))) (- z)) as Hd.
    unfold len in *. simpl String.length. lia.
  - apply digits_nonempty.
Qed.

(** X11: for a value with a negative integer part of [d] decimal digits
    the sign is counted: the result is [d] when [d] is odd and [d + 1] when
    [d] is even. *)
Theorem get_number_guess_len_negative value d :
  int value < 0 → integer_part_digits value d →
  get_number_guess_len value = if Z.odd d then d else d + 1.
Proof.
  intros Hz Hd. unfold integer_part_digits in Hd.
  rewrite Z.abs_neq in Hd by lia.
  unfold get_number_guess_len. rewrite (len_str_neg _ d) by done.
  rewrite Zmod_odd, Z.add_1_r, Z.odd_succ, <- Z.negb_odd.
  destruct (Z.odd d); simpl; lia.
Qed.

(** X12: for every value the result is at least 1, and it is the length
    of the integer part's text or one less. *)
Theorem get_number_guess_len_bounds value :
  1 ≤ get_number_guess_len value
  ∧ len (str (int value)) - 1 ≤ get_number_guess_len value
  ∧ get_number_guess_len value ≤ len (str (int value)).
Proof.
  unfold get_number_guess_len.
  pose proof (str_nonempty (int value)) as Hlen.
  set (guess_len := len (str (int value))) in *.
  destruct (guess_len mod 2 =? 0) eqn:Heven; simpl.
  - apply Z.eqb_eq in Heven.
    assert (guess_len ≠ 1) by (intros ->; discriminate Heven). lia.
  - lia.
Qed.

Lemma get_number_guess_len_negative_witness :
  get_number_guess_len (Ratio (-2467) 2) = if Z.odd 4 then 4 else 4 + 1.
Proof.
  apply (get_number_guess_len_negative (Ratio (-2467) 2) 4).
  - vm_compute. reflexivity.
  - unfold integer_part_digits, decimal_digits. vm_compute.
    repeat split; try discriminate. right. discriminate.
Defined.

End NumbersMore.

(** ** Parents and versions: counts and membership *)

Module ReversionMore.
Import Reversion ReversionFacts.
Section more.
Context {Obj ModelClass Version : Type}.
Context (get_parent_list : Obj → list ModelClass).
Context (get_path_to_parent : Obj → ModelClass → list PathInfo).
Context (attribute : Obj → string → option (@value Obj)).
Context (get_for_object : @value Obj → list Version).

Local Abbreviation get_all_parent_objects :=
  (get_all_parent_objects get_parent_list get_path_to_parent attribute).
Local Abbreviation get_all_obj_and_parent_versions_queryset_list :=
  (get_all_obj_and_parent_versions_queryset_list
     get_parent_list get_path_to_parent attribute get_for_object).
Local Abbreviation get_all_obj_and_parent_versions :=
  (get_all_obj_and_parent_versions
     get_parent_list get_path_to_parent attribute get_for_object).

Lemma versions_eq obj :
  get_all_obj_and_parent_versions obj
  = concat (get_for_object <$> get_all_parent_objects obj)
      ++ get_for_object (Instance obj).
Proof.
  unfold Reversion.get_all_obj_and_parent_versions. rewrite flatten_loop.
  unfold Reversion.get_all_obj_and_parent_versions_queryset_list,
    get_reversion_versions.
  rewrite concat_app. simpl. by rewrite app_nil_r.
Qed.

Lemma elem_of_concat {X} (x : X) (ls : list (list X)) :
  x ∈ concat ls ↔ ∃ l, x ∈ l ∧ l ∈ ls.
Proof.
  induction ls as [|l0 ls IH]; simpl.
  - split; [by intros ?%not_elem_of_nil|].
    by intros (l & _ & ?%not_elem_of_nil).
  - rewrite elem_of_app, IH. split.
    + intros [Hx|(l & Hx & Hl)]; [exists l0|exists l];
        (split; [done|]); [left|by right].
    + intros (l & Hx & [->|Hl]%elem_of_cons); [by left|right].
      by exists l.
Qed.

(** X13: a model without parents has no parent objects, and all its
    versions are its own. *)
Theorem versions_without_parents obj :
  get_parent_list obj = [] →
  get_all_parent_objects obj = []
  ∧ get_all_obj_and_parent_versions obj = get_for_object (Instance obj).
Proof.
  intros Hnone.
  assert (get_all_parent_objects obj = []) as Hparents.
  { rewrite get_all_parent_objects_eq. unfold parent_paths.
    by rewrite Hnone. }
  split; [done|]. by rewrite versions_eq, Hparents.
Qed.

(** X14: a version is returned exactly when the version store gives it
    for the object itself or for one of the parent objects found: nothing
    else is returned and nothing of theirs is dropped. *)
Theorem versions_membership obj v :
  v ∈ get_all_obj_and_parent_versions obj
  ↔ v ∈ get_for_object (Instance obj)
    ∨ ∃ parent, parent ∈ get_all_parent_objects obj ∧ v ∈ get_for_object parent.
Proof.
  rewrite versions_eq, elem_of_app, elem_of_concat. split.
  - intros [(l & Hv & Hl)|Hown]; [right|by left].
    apply list_elem_of_fmap in Hl as (parent & -> & Hparent).
    by exists parent.
  - intros [Hown|(parent & Hparent & Hv)]; [by right|left].
    exists (get_for_object parent). split; [done|].
    by apply list_elem_of_fmap_2.
Qed.

(** X15: there is at most one parent object per parent model, one
    queryset per parent object found plus one for the object itself, and
    the number of versions returned is the sum of the lengths of those
    querysets. *)
Theorem versions_counts obj :
  (length (get_all_parent_objects obj) ≤ length (get_parent_list obj))%nat
  ∧ length (get_all_obj_and_parent_versions_queryset_list obj)
    = S (length (get_all_parent_objects obj))
  ∧ length (get_all_obj_and_parent_versions obj)
    = sum_list
        (length <$> get_all_obj_and_parent_versions_queryset_list obj).
Proof.
  split; [|split].
  - rewrite get_all_parent_objects_eq. unfold parent_paths.
    etrans; [apply List.filter_length_le|].
    by rewrite !length_fmap.
  - unfold Reversion.get_all_obj_and_parent_versions_queryset_list.
    rewrite length_app, length_fmap. simpl. lia.
  - unfold Reversion.get_all_obj_and_parent_versions. rewrite flatten_loop. simpl.
    induction (get_all_obj_and_parent_versions_queryset_list obj)
      as [|l ls IH]; simpl; [done|].
    rewrite length_app. by rewrite IH.
Qed.

End more.

Lemma versions_without_parents_witness :
  Reversion.get_all_parent_objects (λ _ : nat, @nil string)
    Samples.sample_path_to_parent Samples.sample_attribute 0%nat = []
  ∧ Reversion.get_all_obj_and_parent_versions (λ _ : nat, @nil string)
      Samples.sample_path_to_parent Samples.sample_attribute
      (λ v, match v with PyNone => [] | Instance o => [o; S o] end) 0%nat
    = [0%nat; 1%nat].
Proof.
  apply (versions_without_parents (λ _ : nat, @nil string)
           Samples.sample_path_to_parent Samples.sample_attribute
           (λ v, match v with PyNone => [] | Instance o => [o; S o] end)
           0%nat).
  reflexivity.
Defined.

End ReversionMore.
